(** * Teacherscrapper: a shallow embedding of the crawler and its extractors

    The development follows [Teacherscrapper.py]: the text normaliser, the
    two pattern extractors, the label-value harvester, the profile
    extractor, the link resolver and the crawl loop.  Python [str] values
    are Rocq strings whose characters stand for the code points 0..255;
    [dict] is a [gmap], [set] a [gset], [deque] a list whose head is the
    left end. *)

From Stdlib Require Import Ascii String ZArith Lia.
From stdpp Require Import gmap strings list fin_maps.

(** ** Characters *)

Module Chr.

Definition code (c : ascii) : nat := nat_of_ascii c.

Definition between (a b : nat) (c : ascii) : bool :=
  (a <=? code c)%nat && (code c <=? b)%nat.

(** [str.isspace] on one code point below 256: TAB..CR, FS..US, space,
    NEL and NBSP.  The same set is what [\s] matches in a [str] pattern
    and what [str.strip()] removes. *)
Definition is_space (c : ascii) : bool :=
  between 9 13 c || between 28 32 c
  || (code c =? 133)%nat || (code c =? 160)%nat.

(** [\d] in a [str] pattern: the decimal digits. *)
Definition is_digit (c : ascii) : bool := between 48 57 c.

Definition is_upper_az (c : ascii) : bool := between 65 90 c.
Definition is_lower_az (c : ascii) : bool := between 97 122 c.
Definition is_alpha_az (c : ascii) : bool := is_upper_az c || is_lower_az c.

(** [str.lower] on one code point below 256. *)
Definition lower (c : ascii) : ascii :=
  if is_upper_az c
     || (between 192 222 c && negb (code c =? 215)%nat)
  then ascii_of_nat (code c + 32) else c.

Definition just (x : ascii) (c : ascii) : bool := Ascii.eqb x c.

(** A character class given by the string of its members. *)
Definition one_of (members : string) (c : ascii) : bool :=
  existsb (Ascii.eqb c) (list_ascii_of_string members).

End Chr.

(** ** The methods of [str] the program calls *)

Module Str.

Fixpoint lower (s : string) : string :=
  match s with
  | EmptyString => EmptyString
  | String c s' => String (Chr.lower c) (lower s')
  end.

(** [s.lstrip(chars)] for the set of characters [p]. *)
Fixpoint lstrip_with (p : ascii → bool) (s : string) : string :=
  match s with
  | EmptyString => EmptyString
  | String c s' => if p c then lstrip_with p s' else s
  end.

(** [s.rstrip(chars)] for the set of characters [p]. *)
Fixpoint rstrip_with (p : ascii → bool) (s : string) : string :=
  match s with
  | EmptyString => EmptyString
  | String c s' =>
      match rstrip_with p s' with
      | EmptyString => if p c then EmptyString else String c EmptyString
      | r => String c r
      end
  end.

Definition strip (s : string) : string :=
  rstrip_with Chr.is_space (lstrip_with Chr.is_space s).

Fixpoint startswith (pre s : string) : bool :=
  match pre, s with
  | EmptyString, _ => true
  | String a pre', String b s' => Ascii.eqb a b && startswith pre' s'
  | String _ _, EmptyString => false
  end.

(** [s.endswith(suf)] *)
Fixpoint endswith (suf s : string) : bool :=
  if String.eqb s suf then true
  else match s with
       | EmptyString => false
       | String _ s' => endswith suf s'
       end.

(** [sub in s] *)
Fixpoint contains (sub s : string) : bool :=
  if startswith sub s then true
  else match s with
       | EmptyString => false
       | String _ s' => contains sub s'
       end.

(** [c in s] for a single character. *)
Fixpoint has_char (c : ascii) (s : string) : bool :=
  match s with
  | EmptyString => false
  | String a s' => Ascii.eqb a c || has_char c s'
  end.

(** [s.split(c)[0]]: the part before the first [c], the whole of [s]
    when [c] does not occur. *)
Fixpoint before (c : ascii) (s : string) : string :=
  match s with
  | EmptyString => EmptyString
  | String a s' => if Ascii.eqb a c then EmptyString else String a (before c s')
  end.

(** [s.split(c, 1)[1]] when [c] occurs in [s]. *)
Fixpoint after (c : ascii) (s : string) : string :=
  match s with
  | EmptyString => EmptyString
  | String a s' => if Ascii.eqb a c then s' else after c s'
  end.

(** Every character of [s] is in the class [p]. *)
Fixpoint all_chars (p : ascii → bool) (s : string) : bool :=
  match s with
  | EmptyString => true
  | String c s' => p c && all_chars p s'
  end.

Definition is_empty (s : string) : bool :=
  match s with EmptyString => true | _ => false end.

(** [sep.join(l)] *)
Fixpoint join (sep : string) (l : list string) : string :=
  match l with
  | [] => EmptyString
  | [x] => x
  | x :: l' => x +:+ sep +:+ join sep l'
  end.

End Str.

(** ** Regular expressions

    Every pattern of the program is a sequence of greedy quantified
    character classes.  [rep] is the backtracking matcher of one
    quantifier: it takes a character whenever it may, and gives it back
    when the rest of the pattern fails. *)

Module Re.

Record atom := Atom { cls : ascii → bool; lo : nat; hi : option nat }.

Definition one (p : ascii → bool) : atom := Atom p 1 (Some 1).
Definition opt (p : ascii → bool) : atom := Atom p 0 (Some 1).
Definition plus (p : ascii → bool) : atom := Atom p 1 None.
Definition at_least (n : nat) (p : ascii → bool) : atom := Atom p n None.

Definition exhausted (h : option nat) : bool :=
  match h with Some O => true | _ => false end.

Fixpoint rep (p : ascii → bool) (l : nat) (h : option nat)
    (k : string → option (string * string)) (s : string)
    : option (string * string) :=
  let stop := match l with O => k s | S _ => None end in
  match s with
  | EmptyString => stop
  | String c s' =>
      if p c && negb (exhausted h) then
        match rep p (Nat.pred l) (Nat.pred <$> h) k s' with
        | Some (m, rest) => Some (String c m, rest)
        | None => stop
        end
      else stop
  end.

(** [re.match] of the pattern at the start of [s]: the matched text
    and what follows it. *)
Fixpoint match_at (r : list atom) (s : string) : option (string * string) :=
  match r with
  | [] => Some (EmptyString, s)
  | a :: r' => rep (cls a) (lo a) (hi a) (match_at r') s
  end.

(** [re.findall]: scan left to right, matches do not overlap.  [skip]
    counts the characters of the last match still to be passed. *)
Fixpoint findall_go (r : list atom) (skip : nat) (s : string) : list string :=
  match s with
  | EmptyString =>
      match skip, match_at r EmptyString with
      | O, Some (m, _) => [m]
      | _, _ => []
      end
  | String c s' =>
      match skip with
      | S n => findall_go r n s'
      | O =>
          match match_at r s with
          | Some (m, _) => m :: findall_go r (Nat.pred (String.length m)) s'
          | None => findall_go r 0 s'
          end
      end
  end.

Definition findall (r : list atom) (s : string) : list string :=
  findall_go r 0 s.

(** [re.sub] with a constant replacement. *)
Fixpoint sub_go (r : list atom) (repl : string) (skip : nat) (s : string) : string :=
  match s with
  | EmptyString =>
      match skip, match_at r EmptyString with
      | O, Some _ => repl
      | _, _ => EmptyString
      end
  | String c s' =>
      match skip with
      | S n => sub_go r repl n s'
      | O =>
          match match_at r s with
          | Some (EmptyString, _) => repl +:+ String c (sub_go r repl 0 s')
          | Some (m, _) => repl +:+ sub_go r repl (Nat.pred (String.length m)) s'
          | None => String c (sub_go r repl 0 s')
          end
      end
  end.

Definition sub (r : list atom) (repl s : string) : string :=
  sub_go r repl 0 s.

End Re.

(** ** Text normaliser and pattern extractors *)

(** [\s+] *)
Definition ws_run : list Re.atom := [Re.plus Chr.is_space].

Definition normalize_text (x : string) : string :=
  if Str.is_empty x then EmptyString
  else Str.strip (Re.sub ws_run " " x).

(** [[A-Za-z0-9._%+-]+@[A-Za-z0-9.-]+\.[A-Za-z]{2,}] *)
Definition email_local (c : ascii) : bool :=
  Chr.is_alpha_az c || Chr.is_digit c || Chr.one_of "._%+-" c.
Definition email_domain (c : ascii) : bool :=
  Chr.is_alpha_az c || Chr.is_digit c || Chr.one_of ".-" c.
Definition email_re : list Re.atom :=
  [Re.plus email_local; Re.one (Chr.just "@"%char); Re.plus email_domain;
   Re.one (Chr.just "."%char); Re.at_least 2 Chr.is_alpha_az].

(** [list(set(...))]: a Python set has no order of its own, so the
    extractor's result is kept as a set. *)
Definition extract_emails (text : string) : gset string :=
  list_to_set (Re.findall email_re text).

(** [\+?\d[\d ()-]{5,}\d] *)
Definition phone_sep (c : ascii) : bool :=
  Chr.is_digit c || Chr.one_of " ()-" c.
Definition phone_re : list Re.atom :=
  [Re.opt (Chr.just "+"%char); Re.one Chr.is_digit; Re.at_least 5 phone_sep;
   Re.one Chr.is_digit].

(** [list(dict.fromkeys(l))]: the keys of the dict built by inserting the
    items of [l] in order; a key already present keeps its place. *)
Definition dict_fromkeys (l : list string) : list string :=
  fold_left (λ acc x, if decide (x ∈ acc) then acc else acc ++ [x]) l [].

(** [re.sub(r"\s+", " ", p).strip()] *)
Definition clean_phone (p : string) : string :=
  Str.strip (Re.sub ws_run " " p).

(** The list [cleaned] of [extract_phones]. *)
Definition cleaned_phones (text : string) : list string :=
  let phones := Re.findall phone_re text in
  clean_phone <$> phones.

Definition extract_phones (text : string) : list string :=
  dict_fromkeys (cleaned_phones text).

(** ** The parsed document

    What the program sees of a BeautifulSoup tree: elements with a tag
    name, attributes and children, and two kinds of leaves.  [Text] is a
    string that [get_text] returns; [Comment] is a string that [get_text]
    passes over and that [.string] returns all the same (a comment, a
    declaration, a processing instruction).  The document itself is an
    element whose children are the top-level nodes. *)

#[warnings="-register-all"] Inductive node :=
| Text (s : string)
| Comment (s : string)
| Elem (tag : string) (attrs : list (string * string)) (children : list node).

Module Dom.

(** [tag.descendants]: every node below [n], in document order. *)
Fixpoint descendants (n : node) : list node :=
  match n with
  | Text _ | Comment _ => []
  | Elem _ _ cs => flat_map (λ c, c :: descendants c) cs
  end.

Definition named (names : list string) (n : node) : bool :=
  match n with
  | Text _ | Comment _ => false
  | Elem t _ _ => bool_decide (t ∈ names)
  end.

(** [tag.find_all(names)] *)
Definition find_all (names : list string) (n : node) : list node :=
  List.filter (named names) (descendants n).

(** [tag.find(names)] *)
Definition find (names : list string) (n : node) : option node :=
  head (find_all names n).

(** [tag.get(key)] *)
Definition attr (key : string) (n : node) : option string :=
  match n with
  | Text _ | Comment _ => None
  | Elem _ attrs _ => snd <$> List.find (λ kv, String.eqb (fst kv) key) attrs
  end.

(** The text leaves below [n], in document order: the strings
    [get_text] joins.  Comments are not among them. *)
Fixpoint strings (n : node) : list string :=
  match n with
  | Text s => [s]
  | Comment _ => []
  | Elem _ _ cs => flat_map strings cs
  end.

(** All the leaves below [n], comments included, in document order. *)
Fixpoint leaves (n : node) : list string :=
  match n with
  | Text s | Comment s => [s]
  | Elem _ _ cs => flat_map leaves cs
  end.

(** [tag.get_text(sep)] *)
Definition get_text (sep : string) (n : node) : string :=
  Str.join sep (strings n).

(** [tag.get_text(strip=True)]: every leaf stripped, empty ones left out. *)
Definition get_text_strip (n : node) : string :=
  Str.join EmptyString
    (List.filter (λ s, negb (Str.is_empty s)) (Str.strip <$> strings n)).

(** [tag.string]: the leaf itself for a leaf, be it text or comment;
    for an element with exactly one child the [.string] of that child;
    [None] for an element with no child or with several. *)
Fixpoint string_of (n : node) : option string :=
  match n with
  | Text s | Comment s => Some s
  | Elem _ _ [c] => string_of c
  | Elem _ _ _ => None
  end.

End Dom.

(** ** Label-value harvester *)

(** [normalize_text(x.get_text()).lower().rstrip(":")] *)
Definition label_of (n : node) : string :=
  Str.rstrip_with (Chr.just ":"%char)
    (Str.lower (normalize_text (Dom.get_text EmptyString n))).

Definition value_of (n : node) : string :=
  normalize_text (Dom.get_text EmptyString n).

(** [if k: pairs[k] = v] *)
Definition put_labelled (pairs : gmap string string) (k v : string)
    : gmap string string :=
  if Str.is_empty k then pairs else <[k:=v]> pairs.

(** [pairs.setdefault(k, v)] *)
Definition setdefault (pairs : gmap string string) (k v : string)
    : gmap string string :=
  match pairs !! k with
  | Some _ => pairs
  | None => <[k:=v]> pairs
  end.

(** The loop over [<dl>] elements. *)
Definition dl_pass (soup : node) (pairs : gmap string string) : gmap string string :=
  foldl (λ pairs dl,
           foldl (λ pairs dtdd, put_labelled pairs (label_of (fst dtdd)) (value_of (snd dtdd)))
                 pairs
                 (zip (Dom.find_all ["dt"] dl) (Dom.find_all ["dd"] dl)))
        pairs (Dom.find_all ["dl"] soup).

(** The body of the loop over table rows. *)
Definition put_row (pairs : gmap string string) (row : node) : gmap string string :=
  match Dom.find_all ["th"; "td"] row with
  | c0 :: c1 :: _ => put_labelled pairs (label_of c0) (value_of c1)
  | _ => pairs
  end.

(** The loop over [<table>] elements. *)
Definition table_pass (soup : node) (pairs : gmap string string) : gmap string string :=
  foldl (λ pairs table, foldl put_row pairs (Dom.find_all ["tr"] table))
        pairs (Dom.find_all ["table"] soup).

(** The body of the loop over paragraphs and list items. *)
Definition put_line (pairs : gmap string string) (p : node) : gmap string string :=
  let text := normalize_text (Dom.get_text EmptyString p) in
  if Str.has_char ":"%char text then
    let k := Str.strip (Str.lower (Str.before ":"%char text)) in
    let v := Str.strip (Str.after ":"%char text) in
    if (String.length k <? 40)%nat && (0 <? String.length v)%nat
    then setdefault pairs k v
    else pairs
  else pairs.

(** The loop over [<p>] and [<li>] elements. *)
Definition text_pass (soup : node) (pairs : gmap string string) : gmap string string :=
  foldl put_line pairs (Dom.find_all ["p"; "li"] soup).

Definition find_label_value_pairs (soup : node) : gmap string string :=
  text_pass soup (table_pass soup (dl_pass soup ∅)).

(** ** Profile extractor *)

Record profile := Profile {
  name : string;
  designation : string;
  department : string;
  research_interests : string;
  office : string;
  emails : gset string;
  phones : list string;
  image : option string;
  profile_url : string
}.

(** The nested function [get_pair], called with the default fallback. *)
Fixpoint get_pair (pairs : gmap string string) (keys : list string) : string :=
  match keys with
  | [] => EmptyString
  | k :: keys' =>
      match pairs !! k with
      | Some v => v
      | None => get_pair pairs keys'
      end
  end.

(** [soup.title.string], normalised, when both exist and the string is
    not empty. *)
Definition title_name (soup : node) : string :=
  match Dom.find ["title"] soup with
  | Some t =>
      match Dom.string_of t with
      | Some s => if Str.is_empty s then EmptyString else normalize_text s
      | None => EmptyString
      end
  | None => EmptyString
  end.

(** The loop [for tag in ("h1", "h2", "h3")] with its [break]. *)
Fixpoint heading_name (soup : node) (tags : list string) (name : string) : string :=
  match tags with
  | [] => name
  | tag :: tags' =>
      match Dom.find [tag] soup with
      | Some t =>
          if (2 <? String.length (Dom.get_text_strip t))%nat
          then normalize_text (Dom.get_text EmptyString t)
          else heading_name soup tags' name
      | None => heading_name soup tags' name
      end
  end.

Definition resolve_name (soup : node) : string :=
  heading_name soup ["h1"; "h2"; "h3"] (title_name soup).

Definition page_emails (soup : node) : gset string :=
  extract_emails (Dom.get_text " " soup).

Definition page_phones (soup : node) : list string :=
  extract_phones (Dom.get_text " " soup).

Definition page_designation (soup : node) : string :=
  get_pair (find_label_value_pairs soup) ["designation"; "position"; "post"].

Section WithUrllib.

(** [urllib.parse] is not part of the program: [urlparse_netloc url] is
    [urlparse(url).netloc], [None] when [urlparse] raises (the program
    catches that in [is_same_domain]), and [urljoin] is the library's
    function of that name, taken where it returns: the program has no
    handler around its calls, so a [urljoin] that raises ends the crawl
    with that exception. *)
Variable urlparse_netloc : string → option string.
Variable urljoin : string → string → string.

Definition page_image (url : string) (soup : node) : option string :=
  match Dom.find ["img"] soup with
  | Some imgtag =>
      match Dom.attr "src" imgtag with
      | Some src => if Str.is_empty src then None else Some (urljoin url src)
      | None => None
      end
  | None => None
  end.

Definition extract_profile (url : string) (soup : node) : option profile :=
  let name := resolve_name soup in
  let pairs := find_label_value_pairs soup in
  let designation := get_pair pairs ["designation"; "position"; "post"] in
  let department := get_pair pairs ["department"; "dept"; "division"] in
  let research :=
    get_pair pairs ["research interests"; "research"; "area of interest"; "research area"] in
  let office := get_pair pairs ["office"; "room"; "office no"; "office address"] in
  let text := Dom.get_text " " soup in
  let emails := extract_emails text in
  let phones := extract_phones text in
  let img := page_image url soup in
  if Str.is_empty name && bool_decide (emails = ∅)
     && bool_decide (phones = []) && Str.is_empty designation
  then None
  else Some (Profile name designation department research office
                     emails phones img url).

(** ** The scraper object and the link resolver *)

Record scraper := Scraper {
  start_url : string;
  domain : string;
  max_pages : Z
}.

(** [TeacherScraper.__init__]: [urlparse] may raise. *)
Definition new_scraper (url : string) (pages : Z) : option scraper :=
  match urlparse_netloc url with
  | Some netloc => Some (Scraper url netloc pages)
  | None => None
  end.

Definition keywords : list string :=
  ["teacher"; "faculty"; "staff"; "people"; "personnel"; "profile";
   "academic"; "dept"; "division"; "fse"; "fsis"; "fbs"; "fah"; "law";
   "dis"; "shis"; "qsis"; "cse"; "eee"; "cce"].

Definition is_same_domain (self : scraper) (url : string) : bool :=
  match urlparse_netloc url with
  | Some netloc =>
      String.eqb netloc (domain self)
      || Str.endswith ("." +:+ domain self) netloc
  | None => false
  end.

(** The body of the loop over anchors: the link an anchor contributes.
    [find_all("a", href=True)] passes over the anchors without [href]. *)
Definition link_of (self : scraper) (base_url : string) (a : node) : option string :=
  match Dom.attr "href" a with
  | None => None
  | Some h =>
      let href := Str.strip h in
      if Str.startswith "mailto:" href || Str.startswith "tel:" href then None
      else
        let full := urljoin base_url href in
        if is_same_domain self full then Some (Str.before "#"%char full)
        else None
  end.

Definition get_links (self : scraper) (soup : node) (base_url : string) : list string :=
  omap (link_of self base_url) (Dom.find_all ["a"] soup).

Definition is_potential_relevant (url : string) : bool :=
  let lower := Str.lower url in
  existsb (λ k, Str.contains k lower) keywords.

Definition looks_like_profile (url : string) (soup : node) : bool :=
  if is_potential_relevant url then true
  else
    let text := Str.lower (Dom.get_text EmptyString soup) in
    if Str.contains "research" text || Str.contains "designation" text
       || Str.contains "email" text
    then bool_decide (is_Some (Dom.find ["h1"; "h2"] soup))
    else false.

(** ** The crawl loop *)

(** [session.verify]: the default, a CA bundle, or [False]. *)
Inductive verify_mode :=
| VerifyDefault
| VerifyBundle (path : string)
| VerifyOff.

(** The two calls of [session.get] in the loop, with the verification
    mode the session has when the call is made. *)
Inductive request :=
| Fetch (url : string) (v : verify_mode)
| Retry (url : string) (v : verify_mode).

(** What the [try] block of an iteration meets.  [session.get] raises
    [SSLError], raises another exception, or returns a response, whose
    body is given as parsed; or [time.sleep(self.delay)], which stands
    before it in the same block, raises (a negative or NaN delay gives
    [ValueError]): then [session.get] is never reached and the handler
    of line 210 takes over. *)
Inductive outcome :=
| SSLError
| OtherError
| Response (status_code : Z) (content_type : option string) (soup : node)
| SleepError.

Record state := State {
  seen : gset string;
  q : list string;
  results : list profile;
  verify : verify_mode;
  log : list request
}.

(** The world outside the program -- the clock behind [time.sleep] and
    the network behind [session.get] -- is any function from the
    requests made so far and the request at hand to an outcome.  The
    delay is not a field of [scraper]: whether the sleep raises is for
    this function to say, with the answer [SleepError]. *)
Variable net : list request → request → outcome.

Variable self : scraper.

(** [limit = limit or self.max_pages] *)
Definition effective_limit (limit : option Z) : Z :=
  match limit with
  | Some l => if (l =? 0)%Z then max_pages self else l
  | None => max_pages self
  end.

(** The loop over the links of a page, with its [break]. *)
Fixpoint enqueue_links (limit : Z) (seen : gset string) (links : list string)
    (q : list string) : list string :=
  match links with
  | [] => q
  | link :: links' =>
      if decide (link ∈ seen) then enqueue_links limit seen links' q
      else if (limit <=? Z.of_nat (size seen) + Z.of_nat (length q))%Z then q
      else if is_potential_relevant link
           then enqueue_links limit seen links' (link :: q)
           else enqueue_links limit seen links' (q ++ [link])
  end.

(** The loop body from the status check on, for a response in hand. *)
Definition process_response (limit : Z) (url : string) (status_code : Z)
    (content_type : option string) (soup : node) (st : state) : state :=
  if negb (status_code =? 200)%Z
     || negb (Str.contains "text/html" (default EmptyString content_type))
  then st
  else
    let q' := enqueue_links limit (seen st) (get_links self soup url) (q st) in
    let results' :=
      if looks_like_profile url soup then
        match extract_profile url soup with
        | Some p => results st ++ [p]
        | None => results st
        end
      else results st in
    State (seen st) q' results' (verify st) (log st).

(** One iteration of the [while] loop.  The URL is marked as visited
    before the [try] block is entered.  When the sleep raises, the block
    is left before [session.get] is called: no request is logged and the
    loop goes on with the next URL.  The second call of [session.get]
    has no sleep before it; whatever it meets that is not a response
    gives the URL up. *)
Definition step (limit : Z) (st : state) : state :=
  match q st with
  | [] => st
  | url :: q' =>
      if decide (url ∈ seen st) then
        State (seen st) q' (results st) (verify st) (log st)
      else
        let req := Fetch url (verify st) in
        let st1 := State ({[url]} ∪ seen st) q' (results st) (verify st)
                         (log st ++ [req]) in
        match net (log st) req with
        | Response sc ct soup => process_response limit url sc ct soup st1
        | OtherError => st1
        | SleepError =>
            State ({[url]} ∪ seen st) q' (results st) (verify st) (log st)
        | SSLError =>
            let again := Retry url VerifyOff in
            let st2 := State (seen st1) (q st1) (results st1) VerifyOff
                             (log st1 ++ [again]) in
            match net (log st1) again with
            | Response sc ct soup => process_response limit url sc ct soup st2
            | _ => st2
            end
        end
  end.

(** The loop condition. *)
Definition running (limit : Z) (st : state) : bool :=
  negb (bool_decide (q st = []))
  && (Z.of_nat (size (seen st)) <? limit)%Z
  && (Z.of_nat (length (results st)) <? 10000)%Z.

(** The state after at most [n] iterations. *)
Fixpoint run (limit : Z) (n : nat) (st : state) : state :=
  match n with
  | O => st
  | S n' => if running limit st then run limit n' (step limit st) else st
  end.

(** The loop with fuel: [None] when the fuel runs out before the loop
    condition fails. *)
Fixpoint crawl_loop (limit : Z) (fuel : nat) (st : state) : option state :=
  if running limit st then
    match fuel with
    | O => None
    | S fuel' => crawl_loop limit fuel' (step limit st)
    end
  else Some st.

Definition initial (v : verify_mode) : state :=
  State ∅ [start_url self] [] v [].

(** Enough iterations for any crawl with this limit. *)
Definition crawl_fuel (limit : Z) : nat :=
  let l := Z.to_nat (Z.max limit 1) in (l + 1) * (l + 1).

Definition crawl (limit : option Z) (v : verify_mode) : option (list profile) :=
  let limit := effective_limit limit in
  results <$> crawl_loop limit (crawl_fuel limit) (initial v).

End WithUrllib.

(** ** [urlparse(url).netloc] as CPython's [urlsplit] computes it

    Leading C0 controls and spaces are stripped, TAB, CR and LF removed,
    a well-formed scheme split off at the first colon, and after [//] the
    network location runs up to the first of [/], [?] and [#].  Square
    brackets that do not pair up raise [ValueError].  What CPython
    checks beyond that -- the address between paired brackets, and the
    NFKC form of a location with characters outside ASCII -- is not
    modelled: the function stands for [urlsplit] on URLs whose network
    location has neither, and it is used on such URLs only. *)

Module Urllib.

Definition c0_or_space (c : ascii) : bool := (Chr.code c <=? 32)%nat.

(** TAB, LF and CR. *)
Definition unsafe (c : ascii) : bool :=
  Chr.one_of (String "009" (String "010" (String "013" EmptyString))) c.

Fixpoint remove (p : ascii → bool) (s : string) : string :=
  match s with
  | EmptyString => EmptyString
  | String c s' => if p c then remove p s' else String c (remove p s')
  end.

Definition scheme_char (c : ascii) : bool :=
  Chr.is_alpha_az c || Chr.is_digit c || Chr.one_of "+-." c.

(** The text after a scheme, or the whole text when no scheme starts it. *)
Definition drop_scheme (url : string) : string :=
  match url with
  | String c0 _ =>
      let head := Str.before ":"%char url in
      if Str.has_char ":"%char url && Chr.is_alpha_az c0
         && Str.all_chars scheme_char head
      then Str.after ":"%char url
      else url
  | EmptyString => url
  end.

(** The text before the first character of the class [p]. *)
Fixpoint until (p : ascii → bool) (s : string) : string :=
  match s with
  | EmptyString => EmptyString
  | String c s' => if p c then EmptyString else String c (until p s')
  end.

Definition netloc (url0 : string) : option string :=
  let url := remove unsafe (Str.lstrip_with c0_or_space url0) in
  let url := drop_scheme url in
  match url with
  | String "/" (String "/" rest) =>
      let loc := until (Chr.one_of "/?#") rest in
      if xorb (Str.has_char "["%char loc) (Str.has_char "]"%char loc)
      then None
      else Some loc
  | _ => Some EmptyString
  end.





End Urllib.

(** ** Predicates and pages the properties are stated on *)

(** What the free-text pass accepts. *)
Definition acceptable_line (k v : string) : Prop :=
  (String.length k < 40)%nat ∧ v ≠ EmptyString.

(** The page of the precedence test: a table row [Department | CSE] and,
    after it, a paragraph [department: Other]. *)
Definition precedence_page : node :=
  Elem "[document]" []
    [Elem "table" []
       [Elem "tr" [] [Elem "td" [] [Text "Department"]; Elem "td" [] [Text "CSE"]]];
     Elem "p" [] [Text "department: Other"]].

(** A page whose only paragraph starts with a colon. *)
Definition colon_line_page : node :=
  Elem "[document]" [] [Elem "p" [] [Text ": see below"]].

(** A page with a department, an office and a picture, and nothing that
    names or reaches a person. *)
Definition noise_page : node :=
  Elem "[document]" []
    [Elem "dl" []
       [Elem "dt" [] [Text "Department:"]; Elem "dd" [] [Text "CSE"];
        Elem "dt" [] [Text "Office"]; Elem "dd" [] [Text "Room 12"]];
     Elem "img" [("src", "/img/dept.png")] []].

(** A page that announces a conference: an [h1] heading, a paragraph that
    mentions research, no title, no address, no number, no designation. *)
Definition conference_page : node :=
  Elem "[document]" []
    [Elem "h1" [] [Text "Conference Schedule"];
     Elem "p" [] [Text "Sessions of the research track start at nine"]].

(** The same announcement under a fourth-level heading. *)
Definition conference_page_h4 : node :=
  Elem "[document]" []
    [Elem "h4" [] [Text "Conference Schedule"];
     Elem "p" [] [Text "Sessions of the research track start at nine"]].

Definition conference_url : string := "https://example.edu/faculty/events".

(** The announcement again, below a second-level heading too short to
    be a name. *)
Definition conference_page_h2 : node :=
  Elem "[document]" []
    [Elem "h2" [] [Text "CS"];
     Elem "h4" [] [Text "Conference Schedule"];
     Elem "p" [] [Text "Sessions of the research track start at nine"]].

(** [soup] has a heading element whose text is [text]. *)
Definition has_heading (text : string) (soup : node) : Prop :=
  ∃ h, h ∈ Dom.find_all ["h1"; "h2"; "h3"; "h4"; "h5"; "h6"] soup
       ∧ Dom.get_text EmptyString h = text.

(** [urljoin] as it acts on the test pages below, whose links are all
    absolute URLs in canonical form: the link is returned as it is. *)
Definition urljoin_absolute (base href : string) : string := href.

(** [n] repetitions are allowed by the upper bound [h]. *)
Definition within (h : option nat) (n : nat) : Prop :=
  match h with Some b => (n ≤ b)%nat | None => True end.

(** [m] has the shape of the pattern [r]: it is cut into one piece per
    quantified class, each piece made of characters of its class and as
    long as its quantifier allows. *)
Inductive shaped : list Re.atom → string → Prop :=
| shaped_nil : shaped [] EmptyString
| shaped_cons a r piece m :
    Str.all_chars (Re.cls a) piece = true →
    (Re.lo a ≤ String.length piece)%nat →
    within (Re.hi a) (String.length piece) →
    shaped r m →
    shaped (a :: r) (piece +:+ m).

(** The shape of a phone match spelled out: an optional [+], a digit, at
    least five digits or separators, a digit. *)
Definition phone_shaped (m : string) : Prop :=
  ∃ sign d1 mid d2,
    m = sign +:+ String d1 (mid +:+ String d2 EmptyString)
    ∧ (sign = EmptyString ∨ sign = "+")
    ∧ Chr.is_digit d1 = true ∧ Chr.is_digit d2 = true
    ∧ Str.all_chars phone_sep mid = true
    ∧ (5 ≤ String.length mid)%nat.

(** [m] occurs in [text]. *)
Definition occurs_in (m text : string) : Prop :=
  ∃ pre post, text = pre +:+ m +:+ post.

(** ** The frontier *)

(** The links the loop over a page's links puts into the queue, in the
    order it meets them: those not yet seen, up to the [break]. *)
Fixpoint taken_links (limit : Z) (seen : gset string) (links : list string)
    (qlen : nat) : list string :=
  match links with
  | [] => []
  | link :: links' =>
      if decide (link ∈ seen) then taken_links limit seen links' qlen
      else if (limit <=? Z.of_nat (size seen) + Z.of_nat qlen)%Z then []
      else link :: taken_links limit seen links' (S qlen)
  end.

Definition relevant (url : string) : Prop := is_potential_relevant url = true.
Definition other (url : string) : Prop := is_potential_relevant url = false.

(** Every relevant URL of the queue stands before every other one. *)
Definition relevant_first (q : list string) : Prop :=
  ∃ rel oth, q = rel ++ oth ∧ Forall relevant rel ∧ Forall other oth.

(** A site of three pages: the start page links to two faculty pages,
    which link nowhere. *)
Definition site_home : string := "https://example.edu/".
Definition site_a : string := "https://example.edu/faculty/a".
Definition site_b : string := "https://example.edu/faculty/b".

Definition anchor (href : string) : node :=
  Elem "a" [("href", href)] [Text "link"].

Definition home_page : node :=
  Elem "[document]" [] [anchor site_a; anchor site_b].

Definition leaf_page : node :=
  Elem "[document]" [] [Elem "p" [] [Text "nothing here"]].

Definition html (soup : node) : outcome :=
  Response 200 (Some "text/html; charset=utf-8") soup.

Definition request_url (r : request) : string :=
  match r with Fetch u _ | Retry u _ => u end.

Definition site_net (history : list request) (r : request) : outcome :=
  if String.eqb (request_url r) site_home then html home_page else html leaf_page.

Definition site_scraper : scraper := Scraper site_home "example.edu" 1000.

(** The URLs of the first attempts, in the order they were made. *)
Definition fetched (log : list request) : list string :=
  omap (λ r, match r with Fetch u _ => Some u | Retry _ _ => None end) log.

(** The URLs of the second attempts. *)
Definition retried (log : list request) : list string :=
  omap (λ r, match r with Retry u _ => Some u | Fetch _ _ => None end) log.

Definition request_mode (r : request) : verify_mode :=
  match r with Fetch _ v | Retry _ v => v end.

(** Every URL asked for is marked as visited, and no URL is asked for
    twice by the first call nor twice by the second. *)
Definition fetch_once (st : state) : Prop :=
  NoDup (fetched (log st)) ∧ NoDup (retried (log st))
  ∧ (∀ r, r ∈ log st → request_url r ∈ seen st)
  ∧ (∀ u, u ∈ retried (log st) → u ∈ fetched (log st)).

(** ** Termination measure *)

(** The page budget as a count; the start URL is queued whatever the
    limit, hence at least one. *)
Definition budget (limit : Z) : nat := Z.to_nat (Z.max limit 1).

Definition within_budget (limit : Z) (st : state) : Prop :=
  (size (seen st) + length (q st) ≤ budget limit)%nat.

(** Pages that may still be visited, each weighed by the longest queue
    there can be, plus the URLs waiting. *)
Definition fuel_left (limit : Z) (st : state) : nat :=
  (budget limit - size (seen st)) * (budget limit + 1) + length (q st).

(** ** Test sites *)

(** A start page that is a profile and links to the two faculty pages. *)
Definition doe_page : node :=
  Elem "[document]" []
    [Elem "h1" [] [Text "Prof. John Doe"];
     Elem "p" [] [Text "Email: john.doe@iiuc.ac.bd"];
     anchor site_a; anchor site_b].

(** A network whose very first call raises [SSLError] and whose later
    calls all succeed. *)
Definition tls_net (history : list request) (r : request) : outcome :=
  match history with
  | [] => SSLError
  | _ => if String.eqb (request_url r) site_home then html doe_page
         else html leaf_page
  end.

(** A network that raises [SSLError] on every call. *)
Definition broken_net (history : list request) (r : request) : outcome := SSLError.

Definition doe_profile : profile :=
  Profile "Prof. John Doe" EmptyString EmptyString EmptyString EmptyString
          {["john.doe@iiuc.ac.bd"]} [] None site_home.

(** [SAMPLE_HTML] as the parser hands it over. *)
Definition sample_page : node :=
  let nl := String "010"%char (String "009"%char EmptyString) in
  Elem "[document]" []
    [Elem "html" []
       [Elem "head" []
          [Elem "title" [] [Text "Prof. John Doe - Department of Computer Science"]];
        Text nl;
        Elem "body" []
          [Text nl; Elem "h1" [] [Text "Prof. John Doe"];
           Text nl; Elem "p" [] [Text "Designation: Professor"];
           Text nl; Elem "p" [] [Text "Department: Computer Science & Engineering"];
           Text nl; Elem "p" [] [Text "Email: john.doe@iiuc.ac.bd"];
           Text nl; Elem "p" [] [Text "Phone: +880 1234 567890"];
           Text nl; Elem "p" [] [Text "Research interests: Algorithms, Distributed Systems"];
           Text nl]]].

(** A URL as the crawl meets it: the start URL as it was given, or a
    link without a fragment. *)
Definition stripped (self : scraper) (u : string) : Prop :=
  u = start_url self ∨ Str.has_char "#"%char u = false.

Definition stripped_frontier (self : scraper) (st : state) : Prop :=
  (∀ u, u ∈ q st → stripped self u)
  ∧ (∀ r, r ∈ log st → stripped self (request_url r)).

(** A record that names or reaches somebody. *)
Definition substantial (p : profile) : Prop :=
  name p ≠ EmptyString ∨ emails p ≠ ∅ ∨ phones p ≠ []
  ∨ designation p ≠ EmptyString.

(** ** Whitespace-normal text *)

(** The longest prefix of [s] made of characters of the class [p]. *)
Fixpoint span (p : ascii → bool) (s : string) : string :=
  match s with
  | EmptyString => EmptyString
  | String c s' => if p c then String c (span p s') else EmptyString
  end.

(** Every whitespace character of [s] is a space that follows a
    character other than whitespace; [after_space] tells whether the
    character before [s] is whitespace or missing. *)
Fixpoint spaced (after_space : bool) (s : string) : bool :=
  match s with
  | EmptyString => true
  | String c s' =>
      if Chr.is_space c
      then Ascii.eqb c " " && negb after_space && spaced true s'
      else spaced false s'
  end.

(** [spaced], and [s] does not end with whitespace. *)
Fixpoint tidy (after_space : bool) (s : string) : bool :=
  match s with
  | EmptyString => negb after_space
  | String c s' =>
      if Chr.is_space c
      then Ascii.eqb c " " && negb after_space && tidy true s'
      else tidy false s'
  end.

(** [s] is whitespace-normal: no whitespace at either end, and inside
    only single spaces. *)
Definition ws_normal (s : string) : Prop :=
  s = EmptyString ∨ tidy true s = true.

(** What [re.sub(r"\s+", " ", s)] comes to: every run of whitespace
    becomes one space.  [in_run] tells whether a run is being passed. *)
Fixpoint collapse (in_run : bool) (s : string) : string :=
  match s with
  | EmptyString => EmptyString
  | String c s' =>
      if Chr.is_space c
      then if in_run then collapse true s' else String " " (collapse true s')
      else String c (collapse false s')
  end.


(** ** Further notions for the properties of the uncited code *)

(** [s] with every whitespace character taken out. *)
Definition squeeze (s : string) : string := Urllib.remove Chr.is_space s.

(** The shape of an email match spelled out: a local part, [@], a domain
    part, a dot, and at least two letters. *)
Definition email_shaped (e : string) : Prop :=
  ∃ loc dom tld,
    e = loc +:+ "@" +:+ dom +:+ "." +:+ tld
    ∧ Str.all_chars email_local loc = true ∧ (1 ≤ String.length loc)%nat
    ∧ Str.all_chars email_domain dom = true ∧ (1 ≤ String.length dom)%nat
    ∧ Str.all_chars Chr.is_alpha_az tld = true ∧ (2 ≤ String.length tld)%nat.

(** No character of [s] is a decimal digit. *)
Definition digitless (s : string) : Prop :=
  Str.all_chars (λ c, negb (Chr.is_digit c)) s = true.

(** A key as lookups expect it: unchanged by [str.lower], and not
    ending with a colon. *)
Definition settled_key (k : string) : Prop :=
  Str.lower k = k ∧ Str.endswith ":" k = false.

(** [str.lower] leaves the character as it is. *)
Definition is_low (c : ascii) : bool := Ascii.eqb (Chr.lower c) c.

Definition not_colon (c : ascii) : bool := negb (Ascii.eqb c ":").

(** A URL the link resolver may have returned: the fragment-free form of
    a URL that passed the domain test. *)
Definition resolved_in_domain (urlparse_netloc : string → option string)
    (self : scraper) (u : string) : Prop :=
  ∃ full, is_same_domain urlparse_netloc self full = true
          ∧ u = Str.before "#"%char full.

(** The response cannot be used: the status is not 200 or the content
    type does not mention [text/html]. *)
Definition unusable (o : outcome) : Prop :=
  match o with
  | Response sc ct _ =>
      sc ≠ 200%Z ∨ Str.contains "text/html" (default EmptyString ct) = false
  | _ => True
  end.

(** A network that answers every request with a 404. *)
Definition down_net (history : list request) (r : request) : outcome :=
  Response 404 None leaf_page.

(** [TeacherScraper.__init__]: the session verifies against certifi's
    bundle when certifi could be imported, and by default otherwise. *)
Definition session_verify (certifi_where : option string) : verify_mode :=
  match certifi_where with
  | Some path => VerifyBundle path
  | None => VerifyDefault
  end.

(** [main]: what [--insecure] and [--ca-bundle] make of the session's
    verification before the crawl starts. *)
Definition main_verify (certifi_where : option string) (insecure : bool)
    (ca_bundle : option string) : verify_mode :=
  let v := session_verify certifi_where in
  let v := if insecure then VerifyOff else v in
  match ca_bundle with
  | Some path => if Str.is_empty path then v else VerifyBundle path
  | None => v
  end.

(** ** The CSV rows of [save_results] *)

(** The values a record holds: a text, a list of texts, or [None]. *)
Inductive value :=
| VStr (s : string)
| VList (l : list string)
| VNone.

Definition fieldnames : list string :=
  ["name"; "designation"; "department"; "research_interests"; "office";
   "emails"; "phones"; "image"; "profile_url"].

(** What the loop over [fieldnames] writes into [row[k]] for [v = r.get(k)]:
    a list joined by a semicolon and a space, nothing for [None] and for
    a missing key, a text as it is. *)
Definition cell (v : option value) : string :=
  match v with
  | Some (VList l) => Str.join "; " l
  | Some VNone | None => EmptyString
  | Some (VStr s) => s
  end.

(** The row written for the record [r], in the order of the header. *)
Definition csv_row (r : gmap string value) : list string :=
  (λ k, cell (r !! k)) <$> fieldnames.

Definition not_semicolon (c : ascii) : bool := negb (Ascii.eqb c ";").

(** A page of markup only: an empty heading, a picture, an empty table
    cell pair and an empty paragraph, and no text anywhere. *)
Definition textless_page : node :=
  Elem "[document]" []
    [Elem "h1" [] [];
     Elem "img" [("src", "/img/logo.png")] [];
     Elem "table" [] [Elem "tr" [] [Elem "td" [] []; Elem "td" [] []]];
     Elem "p" [] [Elem "b" [] []]].

(** ** Further sites, pages and notions *)

(** A start URL with a fragment, on a site whose every page links to
    the same address without the fragment. *)
Definition top_home : string := "https://example.edu/#top".

Definition top_page : node :=
  Elem "[document]" [] [anchor site_home].

Definition top_net (history : list request) (r : request) : outcome :=
  html top_page.

Definition top_scraper : scraper := Scraper top_home "example.edu" 1000.


(** How many decimal digits [s] holds. *)
Fixpoint count_digits (s : string) : nat :=
  match s with
  | EmptyString => 0
  | String c s' => (if Chr.is_digit c then 1 else 0) + count_digits s'
  end.

(** The page [soup] was received for [url] in the crawl whose requests
    are [log]: a call for [url] stands in the log, and to that call,
    made after the calls before it, the network answered with status
    200, a content type that mentions [text/html], and the body
    [soup]. *)
Definition received (net : list request → request → outcome)
    (log : list request) (url : string) (soup : node) : Prop :=
  ∃ before r later sc ct,
    log = before ++ r :: later
    ∧ request_url r = url
    ∧ net before r = Response sc ct soup
    ∧ sc = 200%Z
    ∧ Str.contains "text/html" (default EmptyString ct) = true.

(** A page with no text at all, whose title wraps a comment. *)
Definition comment_title_page : node :=
  Elem "[document]" []
    [Elem "html" []
       [Elem "head" [] [Elem "title" [] [Comment " staff list "]];
        Elem "body" [] [Elem "img" [("src", "/img/logo.png")] []]]].

(** * Properties *)

(** ** The functions on concrete inputs *)

Example normalize_ex : normalize_text (" a" +:+ String "010"%char (String "009"%char "b ")) = "a b".
Proof. vm_compute. reflexivity. Qed.

Example phones_ex :
  extract_phones "Phone: +880 1234 567890, fax 12-34, +880 1234   567890"
  = ["+880 1234 567890"].
Proof. vm_compute. reflexivity. Qed.

Example emails_ex :
  Re.findall email_re "contact john.doe@iiuc.ac.bd now" = ["john.doe@iiuc.ac.bd"].
Proof. vm_compute. reflexivity. Qed.

Example netloc_ex1 : Urllib.netloc "https://cs.example.edu/x" = Some "cs.example.edu".
Proof. vm_compute. reflexivity. Qed.

Example netloc_ex2 : Urllib.netloc "https://www.iiuc.ac.bd/" = Some "www.iiuc.ac.bd".
Proof. vm_compute. reflexivity. Qed.

Example netloc_ex3 : Urllib.netloc "http://[::1/x" = None.
Proof. vm_compute. reflexivity. Qed.

Example netloc_ex4 : Urllib.netloc "/faculty/list.html" = Some EmptyString.
Proof. vm_compute. reflexivity. Qed.

(** The assertions of the program's own [run_test], on [SAMPLE_HTML]. *)
Example run_test :
  extract_profile urljoin_absolute "https://www.iiuc.ac.bd/faculty/john-doe" sample_page
  = Some (Profile "Prof. John Doe" "Professor" "Computer Science & Engineering"
            "Algorithms, Distributed Systems" EmptyString
            {["john.doe@iiuc.ac.bd"]} ["+880 1234 567890"] None
            "https://www.iiuc.ac.bd/faculty/john-doe").
Proof. vm_compute. reflexivity. Qed.

Example separators_count_ex : extract_phones "ref 1-----2 and 1      2." = ["1-----2"; "1 2"].
Proof. vm_compute. reflexivity. Qed.

(** ** Label-value harvester *)

Section FoldUnion.

Context {B : Type}.
Implicit Types (m : gmap string string) (l : list B).

(** A loop whose body writes over the map it is given writes over it as
    a whole. *)
Lemma foldl_overwrites (f : gmap string string → B → gmap string string) :
  (∀ m b, f m b = f ∅ b ∪ m) →
  ∀ l m, foldl f m l = foldl f ∅ l ∪ m.
Proof.
  intros Hf l. induction l as [|b l IH]; intros m; simpl.
  - by rewrite (left_id_L ∅ (∪)).
  - rewrite (IH (f m b)), (IH (f ∅ b)), (Hf m b).
    by rewrite (assoc_L (∪)).
Qed.

(** A loop whose body only fills gaps of the map it is given only fills
    gaps of it as a whole. *)
Lemma foldl_fills_gaps (f : gmap string string → B → gmap string string) :
  (∀ m b, f m b = m ∪ f ∅ b) →
  ∀ l m, foldl f m l = m ∪ foldl f ∅ l.
Proof.
  intros Hf l. induction l as [|b l IH]; intros m; simpl.
  - by rewrite (right_id_L ∅ (∪)).
  - rewrite (IH (f m b)), (IH (f ∅ b)), (Hf m b).
    by rewrite (assoc_L (∪)).
Qed.

(** A loop keeps what each run of its body keeps. *)
Lemma foldl_preserves (P : gmap string string → Prop)
    (f : gmap string string → B → gmap string string) :
  (∀ m b, P m → P (f m b)) →
  ∀ l m, P m → P (foldl f m l).
Proof.
  intros Hf l. induction l as [|b l IH]; intros m Hm; simpl; auto.
Qed.

End FoldUnion.

Lemma put_labelled_overwrites (pairs : gmap string string) k v :
  put_labelled pairs k v = put_labelled ∅ k v ∪ pairs.
Proof.
  unfold put_labelled. destruct (Str.is_empty k).
  - by rewrite (left_id_L ∅ (∪)).
  - by rewrite insert_empty, insert_union_singleton_l.
Qed.

Lemma setdefault_fills_gaps (pairs : gmap string string) k v :
  setdefault pairs k v = pairs ∪ setdefault ∅ k v.
Proof.
  unfold setdefault. rewrite lookup_empty, insert_empty.
  destruct (pairs !! k) as [w|] eqn:Hk.
  - apply map_eq; intros i. rewrite lookup_union.
    destruct (decide (i = k)) as [->|Hne].
    + by rewrite Hk, lookup_singleton_eq.
    + rewrite lookup_singleton_ne by done. by destruct (pairs !! i).
  - by apply insert_union_singleton_r.
Qed.

Lemma put_row_overwrites (pairs : gmap string string) row :
  put_row pairs row = put_row ∅ row ∪ pairs.
Proof.
  unfold put_row. destruct (Dom.find_all _ row) as [|c0 [|c1 cols]].
  1, 2: by rewrite (left_id_L ∅ (∪)).
  apply put_labelled_overwrites.
Qed.

Lemma put_line_fills_gaps (pairs : gmap string string) p :
  put_line pairs p = pairs ∪ put_line ∅ p.
Proof.
  unfold put_line. destruct (Str.has_char _ _).
  2: by rewrite (right_id_L ∅ (∪)).
  destruct (_ && _).
  - apply setdefault_fills_gaps.
  - by rewrite (right_id_L ∅ (∪)).
Qed.

Lemma dl_pass_overwrites soup (pairs : gmap string string) :
  dl_pass soup pairs = dl_pass soup ∅ ∪ pairs.
Proof.
  unfold dl_pass. apply foldl_overwrites. intros m dl.
  apply foldl_overwrites. intros m' [dt dd]. apply put_labelled_overwrites.
Qed.

Lemma table_pass_overwrites soup (pairs : gmap string string) :
  table_pass soup pairs = table_pass soup ∅ ∪ pairs.
Proof.
  unfold table_pass. apply foldl_overwrites. intros m table.
  apply foldl_overwrites. apply put_row_overwrites.
Qed.

Lemma text_pass_fills_gaps soup (pairs : gmap string string) :
  text_pass soup pairs = pairs ∪ text_pass soup ∅.
Proof. unfold text_pass. apply foldl_fills_gaps, put_line_fills_gaps. Qed.

Lemma put_line_acceptable (pairs : gmap string string) p :
  map_Forall acceptable_line pairs → map_Forall acceptable_line (put_line pairs p).
Proof.
  intros Hm. unfold put_line. destruct (Str.has_char _ _); [|done].
  destruct (_ && _) eqn:Hg; [|done].
  apply andb_true_iff in Hg as [Hk Hv].
  apply Nat.ltb_lt in Hk. apply Nat.ltb_lt in Hv.
  unfold setdefault. destruct (pairs !! _); [done|].
  apply map_Forall_insert_2; [|done]. split; [done|].
  intros E. rewrite E in Hv. simpl in Hv. lia.
Qed.

Lemma text_pass_acceptable soup :
  map_Forall acceptable_line (text_pass soup ∅).
Proof.
  unfold text_pass. apply foldl_preserves.
  - intros; by apply put_line_acceptable.
  - apply map_Forall_empty.
Qed.

(** C3: the free-text pass never replaces a value the map already holds
    (the map it returns is the map it was given, completed by what the
    pass finds on its own), every pair it does add has a key shorter than
    40 characters and a non-empty value, the table pass writes over what
    the definition-list pass left, and on the page with the row
    [Department | CSE] and the paragraph [department: Other] the key
    [department] ends with the value [CSE], though the paragraph alone
    would give [Other]. *)
Theorem free_text_never_overwrites :
  (∀ soup (pairs : gmap string string),
      text_pass soup pairs = pairs ∪ text_pass soup ∅)
  ∧ (∀ soup, map_Forall acceptable_line (text_pass soup ∅))
  ∧ (∀ soup (pairs : gmap string string),
      table_pass soup pairs = table_pass soup ∅ ∪ pairs)
  ∧ (∀ soup,
      find_label_value_pairs soup
      = (table_pass soup ∅ ∪ dl_pass soup ∅) ∪ text_pass soup ∅)
  ∧ text_pass precedence_page ∅ !! "department" = Some "Other"
  ∧ find_label_value_pairs precedence_page !! "department" = Some "CSE".
Proof.
  split; [exact text_pass_fills_gaps|].
  split; [exact text_pass_acceptable|].
  split; [exact table_pass_overwrites|].
  split.
  - intros soup. unfold find_label_value_pairs.
    by rewrite text_pass_fills_gaps, table_pass_overwrites.
  - split; vm_compute; reflexivity.
Qed.

Lemma put_labelled_no_empty_key (pairs : gmap string string) k v :
  pairs !! EmptyString = None → put_labelled pairs k v !! EmptyString = None.
Proof.
  intros Hm. unfold put_labelled. destruct k as [|c k]; simpl; [done|].
  by rewrite lookup_insert_ne.
Qed.

Lemma dl_pass_no_empty_key soup (pairs : gmap string string) :
  pairs !! EmptyString = None → dl_pass soup pairs !! EmptyString = None.
Proof.
  unfold dl_pass.
  apply (foldl_preserves (λ m, m !! EmptyString = None)). intros m dl.
  apply (foldl_preserves (λ m, m !! EmptyString = None)). intros m' [dt dd].
  apply put_labelled_no_empty_key.
Qed.

Lemma table_pass_no_empty_key soup (pairs : gmap string string) :
  pairs !! EmptyString = None → table_pass soup pairs !! EmptyString = None.
Proof.
  unfold table_pass.
  apply (foldl_preserves (λ m, m !! EmptyString = None)). intros m table.
  apply (foldl_preserves (λ m, m !! EmptyString = None)). intros m' row Hm'.
  unfold put_row. destruct (Dom.find_all _ row) as [|c0 [|c1 cols]]; [done..|].
  by apply put_labelled_no_empty_key.
Qed.

(** C10: the definition-list pass and the table pass never put the empty
    string into the map as a key (a pair with an empty label leaves the
    map as it was), whereas the free-text pass does: the paragraph
    [: see below] is stored under the empty key. *)
Theorem structured_keys_nonempty :
  (∀ (pairs : gmap string string) v, put_labelled pairs EmptyString v = pairs)
  ∧ (∀ soup, dl_pass soup ∅ !! EmptyString = None)
  ∧ (∀ soup, table_pass soup (dl_pass soup ∅) !! EmptyString = None)
  ∧ (∀ soup k, k ∈ dom (table_pass soup (dl_pass soup ∅)) → k ≠ EmptyString)
  ∧ find_label_value_pairs colon_line_page !! EmptyString = Some "see below".
Proof.
  split; [done|].
  split; [intros; by apply dl_pass_no_empty_key|].
  split; [intros; by apply table_pass_no_empty_key, dl_pass_no_empty_key|].
  split.
  - intros soup k Hk ->. apply elem_of_dom in Hk as [v Hv].
    rewrite table_pass_no_empty_key in Hv; [done|].
    by apply dl_pass_no_empty_key.
  - vm_compute. reflexivity.
Qed.

Lemma structured_keys_nonempty_witness :
  "department" ∈ dom (table_pass noise_page (dl_pass noise_page ∅))
  ∧ "department" ≠ EmptyString.
Proof.
  assert ("department" ∈ dom (table_pass noise_page (dl_pass noise_page ∅))) as H.
  { apply elem_of_dom. exists "CSE". vm_compute. reflexivity. }
  split; [exact H|].
  exact (proj1 (proj2 (proj2 (proj2 structured_keys_nonempty))) noise_page _ H).
Defined.

(** ** Profile extractor *)

Lemma is_empty_true s : Str.is_empty s = true ↔ s = EmptyString.
Proof. by destruct s. Qed.

Lemma extract_profile_unfold urljoin url soup :
  extract_profile urljoin url soup
  = if Str.is_empty (resolve_name soup) && bool_decide (page_emails soup = ∅)
       && bool_decide (page_phones soup = [])
       && Str.is_empty (page_designation soup)
    then None
    else Some (Profile (resolve_name soup) (page_designation soup)
                 (get_pair (find_label_value_pairs soup) ["department"; "dept"; "division"])
                 (get_pair (find_label_value_pairs soup)
                    ["research interests"; "research"; "area of interest"; "research area"])
                 (get_pair (find_label_value_pairs soup)
                    ["office"; "room"; "office no"; "office address"])
                 (page_emails soup) (page_phones soup)
                 (page_image urljoin url soup) url).
Proof. reflexivity. Qed.

Lemma extract_profile_none urljoin url soup :
  extract_profile urljoin url soup = None
  ↔ resolve_name soup = EmptyString ∧ page_emails soup = ∅
    ∧ page_phones soup = [] ∧ page_designation soup = EmptyString.
Proof.
  rewrite extract_profile_unfold.
  destruct (_ && _) eqn:Hg.
  - repeat (apply andb_true_iff in Hg as [Hg ?]).
    split; [intros _|done].
    repeat split; try by apply is_empty_true.
    all: by eapply bool_decide_eq_true_1.
  - split; [done|]. intros (Hn & He & Hp & Hd).
    rewrite Hn, He, Hp, Hd in Hg. by vm_compute in Hg.
Qed.

Lemma extract_profile_some urljoin url soup p :
  extract_profile urljoin url soup = Some p →
  substantial p
  ∧ name p = resolve_name soup ∧ emails p = page_emails soup
  ∧ phones p = page_phones soup ∧ designation p = page_designation soup
  ∧ profile_url p = url.
Proof.
  intros H. assert (extract_profile urljoin url soup ≠ None) as Hne by by rewrite H.
  rewrite extract_profile_none in Hne. rewrite extract_profile_unfold in H.
  destruct (_ && _); [done|]. injection H as <-. unfold substantial. simpl.
  split; [|done].
  destruct (decide (resolve_name soup = EmptyString));
    destruct (decide (page_emails soup = ∅));
    destruct (decide (page_phones soup = []));
    destruct (decide (page_designation soup = EmptyString)); tauto.
Qed.

Section Results.

Variable urlparse_netloc : string → option string.
Variable urljoin : string → string → string.
Variable net : list request → request → outcome.
Variable self : scraper.

Lemma process_response_substantial limit url sc ct soup st :
  Forall substantial (results st) →
  Forall substantial
    (results (process_response urlparse_netloc urljoin self limit url sc ct soup st)).
Proof.
  intros H. unfold process_response. destruct (_ || _); [done|]. simpl.
  destruct (looks_like_profile url soup); [|done].
  destruct (extract_profile urljoin url soup) as [p|] eqn:E; [|done].
  apply Forall_app. split; [done|]. constructor; [|constructor].
  by apply extract_profile_some in E as [? _].
Qed.

Lemma step_substantial limit st :
  Forall substantial (results st) →
  Forall substantial (results (step urlparse_netloc urljoin net self limit st)).
Proof.
  intros H. unfold step. destruct (q st) as [|url q']; [done|].
  destruct (decide (url ∈ seen st)); [done|].
  destruct (net (log st) _); [|done|by apply process_response_substantial|done].
  destruct (net _ _); try done. by apply process_response_substantial.
Qed.

Lemma run_substantial limit n : ∀ st,
  Forall substantial (results st) →
  Forall substantial (results (run urlparse_netloc urljoin net self limit n st)).
Proof.
  induction n as [|n IH]; intros st H; simpl; [done|].
  destruct (running limit st); [|done]. by apply IH, step_substantial.
Qed.

End Results.

(** C4: the extractor returns no record exactly when the resolved name,
    the emails, the phones and the resolved designation are all empty,
    and a record exactly when one of them is not; department, research
    interests, office and image have no part in it: the page that has a
    department, an office and a picture only is turned down.  A record
    that is returned carries the resolved values, one of which is not
    empty, and so does every record a crawl has collected. *)
Theorem profile_guard :
  (∀ urljoin url soup,
      extract_profile urljoin url soup = None
      ↔ resolve_name soup = EmptyString ∧ page_emails soup = ∅
        ∧ page_phones soup = [] ∧ page_designation soup = EmptyString)
  ∧ (∀ urljoin url soup,
      is_Some (extract_profile urljoin url soup)
      ↔ resolve_name soup ≠ EmptyString ∨ page_emails soup ≠ ∅
        ∨ page_phones soup ≠ [] ∨ page_designation soup ≠ EmptyString)
  ∧ (∀ urljoin url soup p,
      extract_profile urljoin url soup = Some p →
      substantial p
      ∧ name p = resolve_name soup ∧ emails p = page_emails soup
      ∧ phones p = page_phones soup ∧ designation p = page_designation soup
      ∧ profile_url p = url)
  ∧ (∀ urlparse_netloc urljoin net self limit v n,
      Forall substantial
        (results (run urlparse_netloc urljoin net self limit n (initial self v))))
  ∧ (∀ urljoin url,
      get_pair (find_label_value_pairs noise_page) ["department"; "dept"; "division"] = "CSE"
      ∧ get_pair (find_label_value_pairs noise_page)
          ["office"; "room"; "office no"; "office address"] = "Room 12"
      ∧ page_image urljoin url noise_page = Some (urljoin url "/img/dept.png")
      ∧ extract_profile urljoin url noise_page = None).
Proof.
  split; [exact extract_profile_none|]. split.
  - intros urljoin url soup.
    rewrite <-not_eq_None_Some, extract_profile_none.
    destruct (decide (resolve_name soup = EmptyString));
      destruct (decide (page_emails soup = ∅));
      destruct (decide (page_phones soup = []));
      destruct (decide (page_designation soup = EmptyString)); tauto.
  - split; [exact extract_profile_some|]. split.
    + intros. apply run_substantial. constructor.
    + intros urljoin url. repeat split; vm_compute; reflexivity.
Qed.

Lemma profile_guard_witness :
  substantial
    (Profile "Prof. John Doe" "Professor" "Computer Science & Engineering"
       "Algorithms, Distributed Systems" EmptyString
       {["john.doe@iiuc.ac.bd"]} ["+880 1234 567890"] None
       "https://www.iiuc.ac.bd/faculty/john-doe").
Proof.
  apply (proj1 (proj2 (proj2 profile_guard)) urljoin_absolute
           "https://www.iiuc.ac.bd/faculty/john-doe" sample_page).
  vm_compute. reflexivity.
Defined.

Lemma process_response_no_record urlparse_netloc urljoin self limit url sc ct soup st :
  extract_profile urljoin url soup = None →
  results (process_response urlparse_netloc urljoin self limit url sc ct soup st)
  = results st.
Proof.
  intros Hnone. unfold process_response. destruct (_ || _); [done|].
  cbn [results]. rewrite Hnone. by destruct (looks_like_profile url soup).
Qed.

(** C5: a page that carries a heading [Conference Schedule] and from
    which no name, no email address, no phone number and no designation
    can be extracted yields no record, though it passed the page-level
    test; and a crawl that receives such a page keeps its results as
    they were. *)
Theorem conference_page_no_record :
  (∀ urljoin url soup,
      has_heading "Conference Schedule" soup →
      resolve_name soup = EmptyString → page_emails soup = ∅ →
      page_phones soup = [] → page_designation soup = EmptyString →
      looks_like_profile url soup = true →
      extract_profile urljoin url soup = None)
  ∧ (∀ urlparse_netloc urljoin self limit url sc ct soup st,
      has_heading "Conference Schedule" soup →
      resolve_name soup = EmptyString → page_emails soup = ∅ →
      page_phones soup = [] → page_designation soup = EmptyString →
      looks_like_profile url soup = true →
      results (process_response urlparse_netloc urljoin self limit url sc ct soup st)
      = results st).
Proof.
  split.
  - intros urljoin url soup _ Hn He Hp Hd _. by apply extract_profile_none.
  - intros U urljoin self limit url sc ct soup st _ Hn He Hp Hd _.
    by apply process_response_no_record, extract_profile_none.
Qed.

(** Two such pages: one carries the heading as an [h4] and passes the
    page-level test through its URL; the other carries it below an [h2]
    of two characters and passes through what it says, under a URL that
    is not relevant. *)
Lemma conference_page_no_record_witness :
  extract_profile urljoin_absolute conference_url conference_page_h4 = None
  ∧ is_potential_relevant "https://example.edu/events" = false
  ∧ extract_profile urljoin_absolute "https://example.edu/events" conference_page_h2
    = None.
Proof.
  split; [|split; [vm_compute; reflexivity|]].
  - apply (proj1 conference_page_no_record urljoin_absolute conference_url
             conference_page_h4).
    + exists (Elem "h4" [] [Text "Conference Schedule"]). split.
      * vm_compute. apply list_elem_of_here.
      * vm_compute. reflexivity.
    + vm_compute. reflexivity.
    + vm_compute. reflexivity.
    + vm_compute. reflexivity.
    + vm_compute. reflexivity.
    + vm_compute. reflexivity.
  - apply (proj1 conference_page_no_record urljoin_absolute
             "https://example.edu/events" conference_page_h2).
    + exists (Elem "h4" [] [Text "Conference Schedule"]). split.
      * vm_compute. apply list_elem_of_further, list_elem_of_here.
      * vm_compute. reflexivity.
    + vm_compute. reflexivity.
    + vm_compute. reflexivity.
    + vm_compute. reflexivity.
    + vm_compute. reflexivity.
    + vm_compute. reflexivity.
Defined.

(** Where the premise ends: a first [h1] that reads
    [Conference Schedule] is a name the extractor can take, and it takes
    it.  Such a page is not one without an extractable name. *)
Lemma resolve_name_h1 soup h :
  Dom.find ["h1"] soup = Some h →
  Dom.strings h = ["Conference Schedule"] →
  resolve_name soup = "Conference Schedule".
Proof.
  intros Hf Hs. unfold resolve_name. simpl. rewrite Hf.
  unfold Dom.get_text_strip, Dom.get_text. rewrite Hs.
  vm_compute. reflexivity.
Qed.

Example conference_page_h1_named :
  resolve_name conference_page = "Conference Schedule"
  ∧ name <$> extract_profile urljoin_absolute conference_url conference_page
    = Some "Conference Schedule".
Proof. split; vm_compute; reflexivity. Qed.

(** ** Link resolver *)

Lemma endswith_unfold suf s :
  Str.endswith suf s
  = if String.eqb s suf then true
    else match s with
         | EmptyString => false
         | String _ s' => Str.endswith suf s'
         end.
Proof. by destruct s. Qed.

Lemma endswith_spec suf s :
  Str.endswith suf s = true ↔ ∃ pre, s = pre +:+ suf.
Proof.
  split.
  - induction s as [|c s IH]; rewrite endswith_unfold;
      destruct (String.eqb _ suf) eqn:E.
    + apply String.eqb_eq in E as <-. by exists EmptyString.
    + done.
    + apply String.eqb_eq in E as <-. by exists EmptyString.
    + intros [pre ->]%IH. by exists (String c pre).
  - intros [pre ->]. induction pre as [|c pre IH].
    + change (EmptyString +:+ suf) with suf.
      by rewrite endswith_unfold, String.eqb_refl.
    + change (String c pre +:+ suf) with (String c (pre +:+ suf)).
      rewrite endswith_unfold, IH. by destruct (String.eqb _ _).
Qed.

Lemma before_has_no_char c s : Str.has_char c (Str.before c s) = false.
Proof.
  induction s as [|a s IH]; simpl; [done|].
  destruct (Ascii.eqb a c) eqn:E; simpl; [done|]. by rewrite E.
Qed.

Lemma before_without_char c s : Str.has_char c s = false → Str.before c s = s.
Proof.
  induction s as [|a s IH]; [done|]. cbn [Str.has_char Str.before].
  intros [Ha Hs]%orb_false_iff. by rewrite Ha, IH.
Qed.

Section Links.

Variable urlparse_netloc : string → option string.

Lemma is_same_domain_spec self url :
  is_same_domain urlparse_netloc self url = true
  ↔ ∃ netloc, urlparse_netloc url = Some netloc
      ∧ (netloc = domain self ∨ ∃ sub, netloc = sub +:+ "." +:+ domain self).
Proof.
  unfold is_same_domain. destruct (urlparse_netloc url) as [n|].
  - rewrite orb_true_iff, String.eqb_eq, endswith_spec. split.
    + intros H. exists n. split; [done|]. destruct H as [H|[sub H]]; eauto.
    + intros (n' & [= <-] & H). destruct H as [H|[sub H]]; eauto.
  - split; [done|]. by intros (n' & ? & _).
Qed.

Variable urljoin : string → string → string.

Lemma get_links_no_fragment self soup base link :
  link ∈ get_links urlparse_netloc urljoin self soup base →
  Str.has_char "#"%char link = false.
Proof.
  unfold get_links. intros (a & _ & Ha)%list_elem_of_omap.
  unfold link_of in Ha.
  destruct (Dom.attr "href" a); [|done].
  destruct (_ || _); [done|].
  destruct (is_same_domain _ _ _); [|done].
  injection Ha as <-. apply before_has_no_char.
Qed.

End Links.




(** ** Pattern extractors *)

Lemma app_nil_r s : s +:+ EmptyString = s.
Proof. induction s as [|c s IH]; [done|]. by rewrite <-IH at 2. Qed.

Lemma app_assoc s1 s2 s3 : (s1 +:+ s2) +:+ s3 = s1 +:+ s2 +:+ s3.
Proof.
  induction s1 as [|c s1 IH]; [done|].
  change (String c ((s1 +:+ s2) +:+ s3) = String c (s1 +:+ s2 +:+ s3)).
  by rewrite IH.
Qed.

Lemma app_length s1 s2 :
  String.length (s1 +:+ s2) = (String.length s1 + String.length s2)%nat.
Proof.
  induction s1 as [|c s1 IH]; [done|].
  change (S (String.length (s1 +:+ s2)) = S (String.length s1 + String.length s2)).
  by rewrite IH.
Qed.

Lemma app_eq_empty s1 s2 :
  s1 +:+ s2 = EmptyString → s1 = EmptyString ∧ s2 = EmptyString.
Proof. by destruct s1. Qed.

Lemma rep_sound p k s : ∀ l h m rest,
  Re.rep p l h k s = Some (m, rest) →
  ∃ piece s' m',
    s = piece +:+ s' ∧ m = piece +:+ m'
    ∧ Str.all_chars p piece = true
    ∧ (l ≤ String.length piece)%nat ∧ within h (String.length piece)
    ∧ k s' = Some (m', rest).
Proof.
  assert (Hstop : ∀ s l h m rest,
    match l with O => k s | S _ => None end = Some (m, rest) →
    ∃ piece s' m',
      s = piece +:+ s' ∧ m = piece +:+ m'
      ∧ Str.all_chars p piece = true
      ∧ (l ≤ String.length piece)%nat ∧ within h (String.length piece)
      ∧ k s' = Some (m', rest)).
  { intros s0 [|l] h m rest H; [|done].
    exists EmptyString, s0, m. repeat split; try done.
    destruct h; simpl; lia. }
  induction s as [|c s IH]; intros l h m rest H; simpl in H.
  - by apply Hstop.
  - destruct (p c && negb (Re.exhausted h)) eqn:Hc; [|by apply Hstop].
    destruct (Re.rep p (Nat.pred l) (Nat.pred <$> h) k s) as [[m1 rest1]|] eqn:Hr;
      [|by apply Hstop].
    injection H as <- <-.
    apply andb_true_iff in Hc as [Hp Hh].
    destruct (IH _ _ _ _ Hr) as (piece & s' & m' & -> & -> & Hall & Hlo & Hhi & Hk).
    exists (String c piece), s', m'. repeat split; try done.
    + simpl. by rewrite Hp, Hall.
    + simpl. lia.
    + destruct h as [[|b]|]; simpl in *; try done. lia.
Qed.

Lemma match_at_sound r : ∀ s m rest,
  Re.match_at r s = Some (m, rest) → shaped r m ∧ s = m +:+ rest.
Proof.
  induction r as [|a r IH]; intros s m rest H; simpl in H.
  - injection H as <- <-. split; [constructor|done].
  - apply rep_sound in H as (piece & s' & m' & -> & -> & Hall & Hlo & Hhi & Hk).
    apply IH in Hk as [Hs ->]. split.
    + by constructor.
    + by rewrite app_assoc.
Qed.

Lemma findall_go_sound r s : ∀ skip m,
  m ∈ Re.findall_go r skip s → shaped r m ∧ occurs_in m s.
Proof.
  induction s as [|c s IH]; intros skip m H; simpl in H.
  - destruct skip; [|by apply elem_of_nil in H].
    destruct (Re.match_at r EmptyString) as [[m0 rest]|] eqn:Hm;
      [|by apply elem_of_nil in H].
    apply list_elem_of_singleton in H as ->.
    apply match_at_sound in Hm as [Hs Hm]. split; [done|].
    exists EmptyString, rest. by rewrite <-Hm.
  - assert (Htail : ∀ n, m ∈ Re.findall_go r n s → shaped r m ∧ occurs_in m (String c s)).
    { intros n [Hs (pre & post & ->)]%IH. split; [done|].
      by exists (String c pre), post. }
    destruct skip; [|by eapply Htail].
    destruct (Re.match_at r (String c s)) as [[m0 rest]|] eqn:Hm; [|by eapply Htail].
    apply elem_of_cons in H as [->|H]; [|by eapply Htail].
    apply match_at_sound in Hm as [Hs Hm]. split; [done|].
    exists EmptyString, rest. by rewrite Hm.
Qed.

Lemma all_chars_length_1 p s :
  Str.all_chars p s = true → (1 ≤ String.length s)%nat → within (Some 1) (String.length s) →
  ∃ c, s = String c EmptyString ∧ p c = true.
Proof.
  destruct s as [|c [|c' s]]; simpl; intros Hall H1 H2; try lia.
  exists c. split; [done|]. by apply andb_true_iff in Hall as [? _].
Qed.

Lemma phone_re_shaped m : shaped phone_re m → phone_shaped m.
Proof.
  unfold phone_re. intros H.
  inversion H as [|a1 r1 sign m1 Hs1 _ Hs1h H1]; subst; clear H.
  inversion H1 as [|a2 r2 p2 m2 Hs2 Hs2l Hs2h H2]; subst; clear H1.
  inversion H2 as [|a3 r3 mid m3 Hs3 Hs3l _ H3]; subst; clear H2.
  inversion H3 as [|a4 r4 p4 m4 Hs4 Hs4l Hs4h H4]; subst; clear H3.
  inversion H4; subst; clear H4.
  destruct (all_chars_length_1 _ _ Hs2 Hs2l Hs2h) as (d1 & -> & Hd1).
  destruct (all_chars_length_1 _ _ Hs4 Hs4l Hs4h) as (d2 & -> & Hd2).
  exists sign, d1, mid, d2. repeat split; try done.
  destruct sign as [|c [|c' s]].
  - by left.
  - right. change (Chr.just "+"%char c && true = true) in Hs1.
    apply andb_true_iff in Hs1 as [Hc _].
    unfold Chr.just in Hc. by apply Ascii.eqb_eq in Hc as <-.
  - cbn in Hs1h. lia.
Qed.

Lemma phone_shaped_length m :
  phone_shaped m → (7 ≤ String.length (Str.lstrip_with (Chr.just "+"%char) m))%nat.
Proof.
  intros (sign & d1 & mid & d2 & -> & Hsign & Hd1 & Hd2 & _ & Hmid).
  assert (Str.lstrip_with (Chr.just "+"%char) (String d1 (mid +:+ String d2 EmptyString))
          = String d1 (mid +:+ String d2 EmptyString)) as Hkeep.
  { cbn [Str.lstrip_with]. destruct (Chr.just "+"%char d1) eqn:E; [|done].
    unfold Chr.just in E. apply Ascii.eqb_eq in E as <-.
    vm_compute in Hd1. done. }
  destruct Hsign as [-> | ->].
  - change (EmptyString +:+ ?s) with s. rewrite Hkeep. simpl.
    rewrite app_length. simpl. lia.
  - change ("+" +:+ ?s) with (String "+"%char s).
    change (Str.lstrip_with (Chr.just "+"%char) (String "+"%char ?s))
      with (Str.lstrip_with (Chr.just "+"%char) s).
    rewrite Hkeep. simpl. rewrite app_length. simpl. lia.
Qed.

(** *** The normaliser *)

Lemma rep_all_the_way p s : ∀ l,
  Re.rep p l None (Re.match_at []) s
  = if (l <=? String.length (span p s))%nat
    then Some (span p s, Str.lstrip_with p s) else None.
Proof.
  induction s as [|c s IH]; intros l; simpl.
  - by destruct l.
  - destruct (p c) eqn:Hc; simpl; [|by destruct l].
    rewrite IH. destruct l as [|l]; simpl; [done|].
    by destruct (l <=? _)%nat.
Qed.

Lemma ws_match c s :
  Re.match_at ws_run (String c s)
  = if Chr.is_space c
    then Some (String c (span Chr.is_space s), Str.lstrip_with Chr.is_space s)
    else None.
Proof.
  unfold ws_run. cbn [Re.match_at Re.plus Re.cls Re.lo Re.hi].
  rewrite rep_all_the_way. cbn [span Str.lstrip_with].
  by destruct (Chr.is_space c).
Qed.

(** [re.sub] replaces each run of whitespace by one space. *)
Lemma sub_go_collapse s :
  Re.sub_go ws_run " " 0 s = collapse false s
  ∧ Re.sub_go ws_run " " (String.length (span Chr.is_space s)) s = collapse true s.
Proof.
  induction s as [|c s [IH0 IHrun]]; [done|].
  assert (Re.sub_go ws_run " " 0 (String c s) = collapse false (String c s)) as H0.
  { cbn [Re.sub_go collapse]. rewrite ws_match.
    destruct (Chr.is_space c); [|by rewrite IH0].
    cbn [String.length Nat.pred]. by rewrite IHrun. }
  split; [done|]. cbn [span]. destruct (Chr.is_space c) eqn:Hc.
  - cbn [String.length Re.sub_go collapse]. by rewrite Hc.
  - cbn [String.length]. rewrite H0. cbn [collapse]. by rewrite Hc.
Qed.

Lemma collapse_spaced s :
  spaced false (collapse false s) = true ∧ spaced true (collapse true s) = true.
Proof.
  induction s as [|c s [IH0 IH1]]; [done|]. cbn [collapse].
  destruct (Chr.is_space c) eqn:Hc.
  - split; [|done]. by cbn [spaced]; rewrite IH1.
  - cbn [spaced]. by rewrite Hc.
Qed.

Lemma lstrip_spaced b s :
  spaced b s = true → spaced true (Str.lstrip_with Chr.is_space s) = true.
Proof.
  revert b. induction s as [|c s IH]; intros b H; [done|].
  cbn [Str.lstrip_with]. cbn [spaced] in H.
  destruct (Chr.is_space c) eqn:Hc.
  - apply andb_true_iff in H as [_ H]. by eapply IH.
  - cbn [spaced]. by rewrite Hc.
Qed.

Lemma tidy_cons b c s :
  tidy b (String c s)
  = if Chr.is_space c then Ascii.eqb c " " && negb b && tidy true s
    else tidy false s.
Proof. reflexivity. Qed.

Lemma rstrip_tidy s : ∀ b,
  spaced b s = true →
  Str.rstrip_with Chr.is_space s = EmptyString
  ∨ tidy b (Str.rstrip_with Chr.is_space s) = true.
Proof.
  induction s as [|c s IH]; intros b H; [by left|].
  cbn [spaced] in H. cbn [Str.rstrip_with].
  destruct (Chr.is_space c) eqn:Hc.
  - apply andb_true_iff in H as [[Hsp Hb]%andb_true_iff H].
    destruct (IH _ H) as [->|Ht]; [by left|].
    destruct (Str.rstrip_with Chr.is_space s) as [|d r] eqn:Hr; [by left|].
    right. by rewrite tidy_cons, Hc, Hsp, Hb, Ht.
  - destruct (IH _ H) as [->|Ht].
    + right. by rewrite tidy_cons, Hc.
    + destruct (Str.rstrip_with Chr.is_space s) as [|d r] eqn:Hr;
        right; by rewrite tidy_cons, Hc.
Qed.

Lemma clean_phone_normal x : ws_normal (clean_phone x).
Proof.
  unfold clean_phone, Re.sub, Str.strip.
  rewrite (proj1 (sub_go_collapse x)).
  apply rstrip_tidy, (lstrip_spaced false), collapse_spaced.
Qed.

(** [normalize_text] yields whitespace-normal text. *)
Lemma normalize_text_normal x : ws_normal (normalize_text x).
Proof.
  unfold normalize_text. destruct x; [by left|]. apply clean_phone_normal.
Qed.

Lemma dict_fromkeys_snoc l z :
  dict_fromkeys (l ++ [z])
  = if decide (z ∈ dict_fromkeys l) then dict_fromkeys l else dict_fromkeys l ++ [z].
Proof. unfold dict_fromkeys. by rewrite fold_left_app. Qed.

Lemma elem_of_dict_fromkeys l x : x ∈ dict_fromkeys l ↔ x ∈ l.
Proof.
  induction l as [|z l IH] using rev_ind; [done|].
  rewrite dict_fromkeys_snoc, elem_of_app, list_elem_of_singleton.
  destruct (decide (z ∈ dict_fromkeys l)) as [Hz|Hz].
  - rewrite IH. split; [by left|]. intros [?| ->]; [done|]. by apply IH.
  - by rewrite elem_of_app, list_elem_of_singleton, IH.
Qed.

Lemma NoDup_dict_fromkeys l : NoDup (dict_fromkeys l).
Proof.
  induction l as [|z l IH] using rev_ind; [constructor|].
  rewrite dict_fromkeys_snoc. destruct (decide _) as [Hz|Hz]; [done|].
  apply NoDup_app. split; [done|]. split; [|apply NoDup_singleton].
  intros x Hx ->%list_elem_of_singleton. done.
Qed.

(** What stands before [y] in the result is what was seen before the
    first [y]. *)
Lemma dict_fromkeys_first_seen l : ∀ r1 y r2,
  dict_fromkeys l = r1 ++ (y :: r2) →
  ∃ c1 c2, l = c1 ++ (y :: c2) ∧ (y ∉ c1) ∧ ∀ x, x ∈ r1 ↔ x ∈ c1.
Proof.
  induction l as [|z l IH] using rev_ind; intros r1 y r2 H.
  - by destruct r1.
  - rewrite dict_fromkeys_snoc in H.
    assert (dict_fromkeys l = r1 ++ (y :: r2)
            ∨ ((z ∉ dict_fromkeys l) ∧ dict_fromkeys l = r1 ∧ y = z)
            ∨ ∃ r2', dict_fromkeys l = r1 ++ (y :: r2')) as Hcases.
    { destruct (decide (z ∈ dict_fromkeys l)) as [Hz|Hz]; [by left|]. right.
      destruct r2 as [|w r2 _] using rev_ind.
      - apply app_inj_tail in H as [Hd ->]. by left.
      - right. exists r2.
        rewrite app_comm_cons, (assoc_L (++)) in H.
        by apply app_inj_tail in H as [-> _]. }
    destruct Hcases as [Hd|[(Hz & Hd & ->)|[r2' Hd]]].
    + destruct (IH _ _ _ Hd) as (c1 & c2 & -> & Hy & Hx).
      exists c1, (c2 ++ [z]). by rewrite <-(assoc_L (++)).
    + exists l, []. split; [done|]. split.
      * by rewrite <-elem_of_dict_fromkeys.
      * intros x. by rewrite <-Hd, elem_of_dict_fromkeys.
    + destruct (IH _ _ _ Hd) as (c1 & c2 & -> & Hy & Hx).
      exists c1, (c2 ++ [z]). by rewrite <-(assoc_L (++)).
Qed.

Lemma normalize_text_nonempty c s :
  normalize_text (String c s) = clean_phone (String c s).
Proof. reflexivity. Qed.

(** What [extract_phones] returns comes from a match of its pattern. *)
Lemma extract_phones_sound text s :
  s ∈ extract_phones text →
  ∃ m, occurs_in m text ∧ phone_shaped m
       ∧ (7 ≤ String.length (Str.lstrip_with (Chr.just "+"%char) m))%nat
       ∧ s = normalize_text m.
Proof.
  intros Hs. unfold extract_phones in Hs.
  rewrite elem_of_dict_fromkeys in Hs.
  apply list_elem_of_fmap in Hs as (m & -> & Hm).
  apply findall_go_sound in Hm as [Hshape Hocc].
  apply phone_re_shaped in Hshape.
  exists m. repeat split; try done.
  - by apply phone_shaped_length.
  - destruct Hshape as (sign & d1 & mid & d2 & -> & [-> | ->] & _); reflexivity.
Qed.

(** C8, as the claim states it, fails: the seven characters are those
    of the match, separators counted, and the string returned is the
    match with its whitespace normalised.  From [1      2] the
    extractor returns [1 2], three characters long, and from [1-----2]
    it returns a string with two digits. *)
Lemma phone_shorter_than_seven :
  extract_phones "room 1      2" = ["1 2"]
  ∧ String.length "1 2" = 3%nat
  ∧ count_digits "1 2" = 2%nat
  ∧ extract_phones "ref 1-----2" = ["1-----2"]
  ∧ count_digits "1-----2" = 2%nat.
Proof. repeat split; vm_compute; reflexivity. Qed.

(** C8, amended: every string [extract_phones] returns is the
    whitespace normalisation of a piece of the text made of an optional
    [+], a digit, at least five digits, spaces, parentheses or hyphens,
    and a digit (seven characters or more after the sign, separators
    counted, in the piece matched, not in the string returned); it has
    no whitespace at either end and only single spaces inside; the
    result has no duplicates, holds exactly the normalised matches, and
    lists them in the order in which they are first seen. *)
Theorem extract_phones_spec text :
  (∀ s, s ∈ extract_phones text →
        ∃ m, occurs_in m text ∧ phone_shaped m
             ∧ (7 ≤ String.length (Str.lstrip_with (Chr.just "+"%char) m))%nat
             ∧ s = normalize_text m)
  ∧ (∀ s, s ∈ extract_phones text → ws_normal s)
  ∧ NoDup (extract_phones text)
  ∧ (∀ s, s ∈ extract_phones text ↔ s ∈ cleaned_phones text)
  ∧ (∀ r1 y r2, extract_phones text = r1 ++ (y :: r2) →
        ∃ c1 c2, cleaned_phones text = c1 ++ (y :: c2) ∧ (y ∉ c1)
                 ∧ ∀ x, x ∈ r1 ↔ x ∈ c1).
Proof.
  split; [|split; [|split; [apply NoDup_dict_fromkeys|split]]].
  2: { intros s Hs. unfold extract_phones in Hs.
       rewrite elem_of_dict_fromkeys in Hs.
       apply list_elem_of_fmap in Hs as (m & -> & _). apply clean_phone_normal. }
  - apply extract_phones_sound.
  - intros s. apply elem_of_dict_fromkeys.
  - apply dict_fromkeys_first_seen.
Qed.

Lemma extract_phones_spec_witness :
  ∃ m, occurs_in m "Phone: +880 1234   567890 (office)"
       ∧ phone_shaped m
       ∧ (7 ≤ String.length (Str.lstrip_with (Chr.just "+"%char) m))%nat
       ∧ "+880 1234 567890" = normalize_text m.
Proof.
  apply (proj1 (extract_phones_spec "Phone: +880 1234   567890 (office)")).
  vm_compute. apply list_elem_of_here.
Defined.

(** ** The frontier *)

Section Frontier.

Variable urlparse_netloc : string → option string.
Variable urljoin : string → string → string.
Variable net : list request → request → outcome.
Variable self : scraper.

Abbreviation step := (step urlparse_netloc urljoin net self).
Abbreviation run := (run urlparse_netloc urljoin net self).
Abbreviation process_response := (process_response urlparse_netloc urljoin self).
Abbreviation initial := (initial self).

Lemma enqueue_links_lanes limit seen links : ∀ q,
  enqueue_links limit seen links q
  = reverse (List.filter is_potential_relevant (taken_links limit seen links (length q)))
    ++ q
    ++ List.filter (λ u, negb (is_potential_relevant u))
         (taken_links limit seen links (length q)).
Proof.
  induction links as [|link links IH]; intros q; simpl.
  - by rewrite (right_id_L [] (++)).
  - destruct (decide (link ∈ seen)); [apply IH|].
    destruct (_ <=? _)%Z; simpl; [by rewrite (right_id_L [] (++))|].
    destruct (is_potential_relevant link) eqn:Hrel; simpl; rewrite IH.
    + rewrite reverse_cons, <-(assoc_L (++)). simpl. done.
    + rewrite length_app, Nat.add_1_r, <-!(assoc_L (++)). simpl. done.
Qed.

Lemma relevant_first_tail u q : relevant_first (u :: q) → relevant_first q.
Proof.
  intros (rel & oth & Hq & Hrel & Hoth). destruct rel as [|r rel]; simpl in Hq.
  - subst oth. exists [], q. split; [done|]. split; [constructor|].
    by apply Forall_cons in Hoth as [_ ?].
  - injection Hq as -> ->. exists rel, oth. split; [done|]. split; [|done].
    by apply Forall_cons in Hrel as [_ ?].
Qed.

Lemma enqueue_links_relevant_first limit seen links q :
  relevant_first q → relevant_first (enqueue_links limit seen links q).
Proof.
  revert q. induction links as [|link links IH]; intros q Hq; simpl; [done|].
  destruct (decide (link ∈ seen)); [by apply IH|].
  destruct (_ <=? _)%Z; [done|].
  destruct Hq as (rel & oth & -> & Hrel & Hoth).
  destruct (is_potential_relevant link) eqn:Hl; apply IH.
  - exists (link :: rel), oth. split; [done|]. split; [|done]. by constructor.
  - exists rel, (oth ++ [link]). split; [by rewrite (assoc_L (++))|].
    split; [done|]. apply Forall_app. split; [done|]. by constructor.
Qed.

Lemma process_response_relevant_first limit url sc ct soup st :
  relevant_first (q st) →
  relevant_first (q (process_response limit url sc ct soup st)).
Proof.
  intros Hq. unfold process_response. destruct (_ || _); [done|]. simpl.
  by apply enqueue_links_relevant_first.
Qed.

Lemma step_relevant_first limit st :
  relevant_first (q st) → relevant_first (q (step limit st)).
Proof.
  intros Hq. unfold step. destruct (q st) as [|url q'] eqn:E; [by rewrite E|].
  apply relevant_first_tail in Hq.
  destruct (decide (url ∈ seen st)); [done|].
  destruct (net (log st) _); [|done|by apply process_response_relevant_first|done].
  destruct (net _ _); try done. by apply process_response_relevant_first.
Qed.

Lemma run_relevant_first limit n : ∀ st,
  relevant_first (q st) → relevant_first (q (run limit n st)).
Proof.
  induction n as [|n IH]; intros st Hq; simpl; [done|].
  destruct (running limit st); [|done]. by apply IH, step_relevant_first.
Qed.

Lemma initial_relevant_first v : relevant_first (q (initial v)).
Proof.
  simpl. destruct (is_potential_relevant (start_url self)) eqn:E.
  - exists [start_url self], []. repeat split; by repeat constructor.
  - exists [], [start_url self]. repeat split; by repeat constructor.
Qed.

End Frontier.

(** C2, as the claim states it, fails: two relevant links met in the
    order [a], [b] are queued, and then fetched, in the order [b], [a]. *)
Lemma relevant_lane_is_not_fifo :
  relevant site_a ∧ relevant site_b
  ∧ get_links Urllib.netloc urljoin_absolute site_scraper home_page site_home
    = [site_a; site_b]
  ∧ enqueue_links 1000 {[site_home]} [site_a; site_b] [] = [site_b; site_a]
  ∧ fetched (log (run Urllib.netloc urljoin_absolute site_net site_scraper 1000 3
                    (initial site_scraper VerifyDefault)))
    = [site_home; site_b; site_a].
Proof. repeat split; vm_compute; reflexivity. Qed.

(** C2, amended: a link the loop takes goes to the front of the queue
    when it passes the URL-level test and to the back otherwise, so the
    queue after a page is the relevant links taken, last taken first,
    then the old queue, then the other links taken, in the order taken;
    and at every moment of every crawl the relevant URLs of the queue
    stand before all the others. *)
Theorem frontier_relevant_first :
  (∀ limit seen links q,
      enqueue_links limit seen links q
      = reverse (List.filter is_potential_relevant
                   (taken_links limit seen links (length q)))
        ++ q
        ++ List.filter (λ u, negb (is_potential_relevant u))
             (taken_links limit seen links (length q)))
  ∧ (∀ urlparse_netloc urljoin net self limit v n,
      relevant_first
        (q (run urlparse_netloc urljoin net self limit n (initial self v)))).
Proof.
  split; [exact enqueue_links_lanes|].
  intros. apply run_relevant_first, initial_relevant_first.
Qed.

(** ** The crawl loop *)

Section Crawl.

Variable urlparse_netloc : string → option string.
Variable urljoin : string → string → string.
Variable net : list request → request → outcome.
Variable self : scraper.

Abbreviation step := (step urlparse_netloc urljoin net self).
Abbreviation run := (run urlparse_netloc urljoin net self).
Abbreviation crawl_loop := (crawl_loop urlparse_netloc urljoin net self).
Abbreviation process_response := (process_response urlparse_netloc urljoin self).
Abbreviation initial := (initial self).

Lemma process_response_seen limit url sc ct soup st :
  seen (process_response limit url sc ct soup st) = seen st.
Proof. unfold process_response. by destruct (_ || _). Qed.

Lemma process_response_log limit url sc ct soup st :
  log (process_response limit url sc ct soup st) = log st.
Proof. unfold process_response. by destruct (_ || _). Qed.

Lemma process_response_verify limit url sc ct soup st :
  verify (process_response limit url sc ct soup st) = verify st.
Proof. unfold process_response. by destruct (_ || _). Qed.

Lemma process_response_q limit url sc ct soup st :
  ∃ links, q (process_response limit url sc ct soup st)
           = enqueue_links limit (seen st) links (q st).
Proof.
  unfold process_response. destruct (_ || _); [by exists []|]. by eexists.
Qed.

(** An iteration that meets a URL already visited only drops it. *)
Lemma step_skip limit st url q' :
  q st = url :: q' → url ∈ seen st →
  step limit st = State (seen st) q' (results st) (verify st) (log st).
Proof. intros Hq Hin. unfold step. rewrite Hq. by rewrite decide_True. Qed.

(** An iteration that meets a new URL marks it; it asks for it once,
    and once more exactly when the first call raised [SSLError], unless
    the sleep before the first call raised: then it asks for nothing. *)
Lemma step_visit limit st url q' :
  q st = url :: q' → url ∉ seen st →
  seen (step limit st) = {[url]} ∪ seen st
  ∧ (∃ links, q (step limit st)
              = enqueue_links limit ({[url]} ∪ seen st) links q')
  ∧ ((net (log st) (Fetch url (verify st)) = SleepError
      ∧ log (step limit st) = log st
      ∧ verify (step limit st) = verify st)
     ∨ (net (log st) (Fetch url (verify st)) ≠ SSLError
        ∧ net (log st) (Fetch url (verify st)) ≠ SleepError
        ∧ log (step limit st) = log st ++ [Fetch url (verify st)]
        ∧ verify (step limit st) = verify st)
     ∨ (net (log st) (Fetch url (verify st)) = SSLError
        ∧ log (step limit st)
          = log st ++ [Fetch url (verify st); Retry url VerifyOff]
        ∧ verify (step limit st) = VerifyOff)).
Proof.
  intros Hq Hin. unfold step. rewrite Hq, decide_False by done.
  destruct (net (log st) _) as [| |sc ct soup|] eqn:Hn; simpl.
  - destruct (net (log st ++ _) _) as [| |sc ct soup|] eqn:Hr; simpl.
    1, 2, 4: (split; [done|]; split; [by exists []|]; right; right;
              by rewrite <-(assoc_L (++))).
    rewrite process_response_seen, process_response_log, process_response_verify.
    simpl. split; [done|]. split; [apply process_response_q|].
    right; right. by rewrite <-(assoc_L (++)).
  - split; [done|]. split; [by exists []|]. right; left. by auto.
  - rewrite process_response_seen, process_response_log, process_response_verify.
    simpl. split; [done|]. split; [apply process_response_q|]. right; left. by auto.
  - split; [done|]. split; [by exists []|]. by left.
Qed.

Lemma step_seen_grows limit st : seen st ⊆ seen (step limit st).
Proof.
  destruct (q st) as [|url q'] eqn:Hq; [by unfold step; rewrite Hq|].
  destruct (decide (url ∈ seen st)) as [Hin|Hin].
  - by rewrite (step_skip _ _ _ _ Hq Hin).
  - destruct (step_visit limit _ _ _ Hq Hin) as (-> & _).
    apply union_subseteq_r.
Qed.

Lemma run_S limit n st :
  run limit (S n) st = if running limit st then run limit n (step limit st) else st.
Proof. reflexivity. Qed.

Lemma run_seen_grows limit n : ∀ st, seen st ⊆ seen (run limit n st).
Proof.
  induction n as [|n IH]; intros st; [done|]. rewrite run_S.
  destruct (running limit st); [|done].
  etrans; [apply step_seen_grows|apply IH].
Qed.

Lemma run_add limit n m : ∀ st,
  run limit (n + m) st = run limit m (run limit n st).
Proof.
  induction n as [|n IH]; intros st; [done|].
  change (S n + m)%nat with (S (n + m)). rewrite !run_S.
  destruct (running limit st) eqn:E; [apply IH|].
  destruct m; [done|]. by rewrite run_S, E.
Qed.

Lemma fetched_in_log u l : u ∈ fetched l → ∃ r, r ∈ l ∧ request_url r = u.
Proof.
  intros (r & Hr & Hu)%list_elem_of_omap. exists r. split; [done|].
  destruct r; by simplify_eq/=.
Qed.

Lemma retried_in_log u l : u ∈ retried l → ∃ r, r ∈ l ∧ request_url r = u.
Proof.
  intros (r & Hr & Hu)%list_elem_of_omap. exists r. split; [done|].
  destruct r; by simplify_eq/=.
Qed.

Lemma step_fetch_once limit st : fetch_once st → fetch_once (step limit st).
Proof.
  intros (Hf & Hr & Hseen & Hrf).
  destruct (q st) as [|url q'] eqn:Hq; [by unfold step; rewrite Hq|].
  destruct (decide (url ∈ seen st)) as [Hin|Hin].
  { by rewrite (step_skip _ _ _ _ Hq Hin). }
  assert (url ∉ fetched (log st)) as Hnf.
  { intros (r & Hr' & <-)%fetched_in_log. by apply Hin, Hseen. }
  assert (url ∉ retried (log st)) as Hnr.
  { intros (r & Hr' & <-)%retried_in_log. by apply Hin, Hseen. }
  destruct (step_visit limit _ _ _ Hq Hin)
    as (Hs & _ & [(_ & Hl & _)|[(_ & _ & Hl & _)|(_ & Hl & _)]]);
    unfold fetch_once; rewrite Hs, Hl; unfold fetched, retried;
    rewrite ?omap_app; simpl; rewrite ?(right_id_L [] (++)).
  - split; [done|]. split; [done|]. split; [|done].
    intros r Hr'. apply elem_of_union. right. by apply Hseen.
  - split; [|split; [done|split]].
    + apply NoDup_app. split; [done|]. split; [|apply NoDup_singleton].
      intros x Hx ->%list_elem_of_singleton. done.
    + intros r [Hr'| ->%list_elem_of_singleton]%elem_of_app;
        apply elem_of_union; [right; by apply Hseen|left].
      by apply elem_of_singleton.
    + intros u Hu. apply elem_of_app. left. by apply Hrf.
  - split; [|split; [|split]].
    + apply NoDup_app. split; [done|]. split; [|apply NoDup_singleton].
      intros x Hx ->%list_elem_of_singleton. done.
    + apply NoDup_app. split; [done|]. split; [|apply NoDup_singleton].
      intros x Hx ->%list_elem_of_singleton. done.
    + intros r [Hr'|Hr']%elem_of_app; apply elem_of_union.
      * right. by apply Hseen.
      * left. apply elem_of_singleton.
        by apply elem_of_cons in Hr' as [-> | ->%list_elem_of_singleton].
    + intros u [Hu| ->%list_elem_of_singleton]%elem_of_app; apply elem_of_app.
      * left. by apply Hrf.
      * right. by apply list_elem_of_singleton.
Qed.

Lemma run_fetch_once limit n : ∀ st, fetch_once st → fetch_once (run limit n st).
Proof.
  induction n as [|n IH]; intros st H; [done|]. rewrite run_S.
  destruct (running limit st); [|done]. by apply IH, step_fetch_once.
Qed.

Lemma initial_fetch_once v : fetch_once (initial v).
Proof.
  repeat split; simpl; try constructor.
  - intros r Hr. by apply elem_of_nil in Hr.
  - intros u Hu. by apply elem_of_nil in Hu.
Qed.

(** *** Fragments *)

Lemma enqueue_links_elem limit seen links u : ∀ q,
  u ∈ enqueue_links limit seen links q → u ∈ q ∨ u ∈ links.
Proof.
  induction links as [|link links IH]; intros q Hu; simpl in Hu; [by left|].
  destruct (decide (link ∈ seen)).
  { destruct (IH _ Hu); [by left|]. right. by apply elem_of_cons; right. }
  destruct (_ <=? _)%Z; [by left|].
  destruct (is_potential_relevant link);
    (destruct (IH _ Hu) as [Hq|Hl]; [|right; by apply elem_of_cons; right]).
  - apply elem_of_cons in Hq as [->|Hq]; [right; by apply elem_of_cons; left|by left].
  - apply elem_of_app in Hq as [Hq| ->%list_elem_of_singleton]; [by left|].
    right. by apply elem_of_cons; left.
Qed.

Lemma process_response_stripped limit url sc ct soup st u :
  u ∈ q (process_response limit url sc ct soup st) →
  u ∈ q st ∨ Str.has_char "#"%char u = false.
Proof.
  unfold process_response. destruct (_ || _); [by left|]. simpl.
  intros [Hq|Hl]%enqueue_links_elem; [by left|].
  right. by eapply get_links_no_fragment.
Qed.

Lemma step_stripped limit st :
  stripped_frontier self st → stripped_frontier self (step limit st).
Proof.
  intros [Hq Hlog].
  destruct (q st) as [|url q'] eqn:E.
  { unfold step. rewrite E. split; [by rewrite E|done]. }
  assert (stripped self url) as Hurl by (apply Hq; by apply elem_of_cons; left).
  assert (∀ u, u ∈ q' → stripped self u) as Hq'
    by (intros u Hu; apply Hq; by apply elem_of_cons; right).
  assert (∀ v r, r ∈ log st ++ [Fetch url v] → stripped self (request_url r)) as Hlog1.
  { intros v r [Hr| ->%list_elem_of_singleton]%elem_of_app; [by apply Hlog|done]. }
  assert (∀ v r, r ∈ (log st ++ [Fetch url v]) ++ [Retry url VerifyOff] →
                 stripped self (request_url r)) as Hlog2.
  { intros v r [Hr| ->%list_elem_of_singleton]%elem_of_app; [by eapply Hlog1|done]. }
  assert (∀ sc ct soup st1,
            q st1 = q' → (∀ r, r ∈ log st1 → stripped self (request_url r)) →
            stripped_frontier self (process_response limit url sc ct soup st1)) as Hpage.
  { intros sc ct soup st1 Hq1 Hl1. split.
    - intros u [Hu|Hu]%process_response_stripped; [|by right].
      rewrite Hq1 in Hu. by apply Hq'.
    - by rewrite process_response_log. }
  unfold step. rewrite E.
  destruct (decide (url ∈ seen st)); [by split|].
  destruct (net (log st) _) as [| |sc ct soup|].
  - destruct (net _ (Retry _ _)) as [| |sc ct soup|].
    1, 2, 4: split; [done|]; simpl; apply Hlog2.
    apply Hpage; [done|]. simpl. apply Hlog2.
  - split; [done|]. simpl. apply Hlog1.
  - apply Hpage; [done|]. simpl. apply Hlog1.
  - by split.
Qed.

Lemma run_stripped limit n : ∀ st,
  stripped_frontier self st → stripped_frontier self (run limit n st).
Proof.
  induction n as [|n IH]; intros st H; [done|]. rewrite run_S.
  destruct (running limit st); [|done]. by apply IH, step_stripped.
Qed.

Lemma initial_stripped v : stripped_frontier self (initial v).
Proof.
  split; simpl.
  - intros u ->%list_elem_of_singleton. by left.
  - intros r Hr. by apply elem_of_nil in Hr.
Qed.

(** When the start URL has no fragment, no URL asked for has one, and
    stripping the fragments tells apart what was told apart before. *)
Lemma fetched_strip_unique st :
  Str.has_char "#"%char (start_url self) = false →
  fetch_once st → stripped_frontier self st →
  NoDup (Str.before "#"%char <$> fetched (log st)).
Proof.
  intros Hstart (Hnd & _) [_ Hlog].
  assert (Forall (λ u, Str.before "#"%char u = u) (fetched (log st))) as Hid.
  { apply Forall_forall. intros u (r & Hr & <-)%fetched_in_log.
    apply before_without_char. by destruct (Hlog r Hr) as [-> | ?]. }
  assert (Str.before "#"%char <$> fetched (log st) = fetched (log st)) as ->; [|done].
  clear Hnd. induction Hid as [|u l Hu _ IH]; [done|].
  by rewrite fmap_cons, Hu, IH.
Qed.

(** *** Termination *)

Lemma size_seen_add (url : string) (seen : gset string) :
  url ∉ seen → size ({[url]} ∪ seen) = S (size seen).
Proof.
  intros Hin. rewrite size_union, size_singleton; [done|].
  by apply disjoint_singleton_l.
Qed.

Lemma enqueue_links_full limit seen links : ∀ q,
  (limit ≤ Z.of_nat (size seen) + Z.of_nat (length q))%Z →
  enqueue_links limit seen links q = q.
Proof.
  induction links as [|link links IH]; intros q Hfull; simpl; [done|].
  destruct (decide (link ∈ seen)); [by apply IH|].
  destruct (Z.leb_spec limit (Z.of_nat (size seen) + Z.of_nat (length q))); [done|lia].
Qed.

Lemma enqueue_links_bound limit seen links : ∀ q,
  (size seen + length q ≤ budget limit)%nat →
  (size seen + length (enqueue_links limit seen links q) ≤ budget limit)%nat.
Proof.
  unfold budget.
  induction links as [|link links IH]; intros q Hq; simpl; [done|].
  destruct (decide (link ∈ seen)); [by apply IH|].
  destruct (Z.leb_spec limit (Z.of_nat (size seen) + Z.of_nat (length q))); [done|].
  destruct (is_potential_relevant link); apply IH.
  - simpl. lia.
  - rewrite length_app. simpl. lia.
Qed.

Lemma running_true limit st :
  running limit st = true →
  (∃ url q', q st = url :: q')
  ∧ (Z.of_nat (size (seen st)) < limit)%Z
  ∧ (Z.of_nat (length (results st)) < 10000)%Z.
Proof.
  unfold running. intros [[Hq Hs%Z.ltb_lt]%andb_true_iff Hr%Z.ltb_lt]%andb_true_iff.
  split; [|done]. destruct (q st) as [|url q']; [done|]. by eauto.
Qed.

(** What one iteration does to the visited set and the queue. *)
Lemma step_progress limit st :
  running limit st = true →
  ∃ url q', q st = url :: q'
    ∧ ((url ∈ seen st ∧ seen (step limit st) = seen st ∧ q (step limit st) = q')
       ∨ ((url ∉ seen st) ∧ seen (step limit st) = {[url]} ∪ seen st
          ∧ size (seen (step limit st)) = S (size (seen st)))).
Proof.
  intros ((url & q' & Hq) & _)%running_true. exists url, q'. split; [done|].
  destruct (decide (url ∈ seen st)) as [Hin|Hin].
  - left. by rewrite (step_skip _ _ _ _ Hq Hin).
  - right. destruct (step_visit limit _ _ _ Hq Hin) as (Hs & _).
    rewrite Hs. split; [done|]. split; [done|]. by apply size_seen_add.
Qed.

Lemma step_decreases limit st :
  running limit st = true → within_budget limit st →
  within_budget limit (step limit st)
  ∧ (fuel_left limit (step limit st) < fuel_left limit st)%nat.
Proof.
  intros Hrun Hin. pose proof Hrun as ((url & q' & Hq) & Hlt & _)%running_true.
  unfold within_budget, fuel_left in *. rewrite Hq in Hin. simpl in Hin.
  assert (size (seen st) < budget limit)%nat as Hroom by (unfold budget; lia).
  destruct (decide (url ∈ seen st)) as [Hv|Hv].
  - rewrite (step_skip _ _ _ _ Hq Hv), Hq. simpl. lia.
  - destruct (step_visit limit _ _ _ Hq Hv) as (Hs & [links Hl] & _).
    rewrite Hs, Hl, Hq, (size_seen_add _ _ Hv).
    pose proof (enqueue_links_bound limit ({[url]} ∪ seen st) links q') as Hb.
    rewrite (size_seen_add _ _ Hv) in Hb. specialize (Hb ltac:(lia)).
    split; [done|]. simpl.
    replace (budget limit - size (seen st))%nat
      with (S (budget limit - S (size (seen st)))) by lia.
    rewrite Nat.mul_succ_l. lia.
Qed.

Lemma run_within_budget limit n : ∀ st,
  within_budget limit st → within_budget limit (run limit n st).
Proof.
  induction n as [|n IH]; intros st H; [done|]. rewrite run_S.
  destruct (running limit st) eqn:E; [|done]. by apply IH, step_decreases.
Qed.

Lemma run_seen_bound limit n : ∀ st,
  (Z.of_nat (size (seen st)) ≤ Z.max 0 limit)%Z →
  (Z.of_nat (size (seen (run limit n st))) ≤ Z.max 0 limit)%Z.
Proof.
  induction n as [|n IH]; intros st H; [done|]. rewrite run_S.
  destruct (running limit st) eqn:E; [|done]. apply IH.
  destruct (step_progress _ _ E) as (url & q' & _ & [(_ & -> & _)|(_ & _ & ->)]);
    [done|].
  apply running_true in E as (_ & Hlt & _). lia.
Qed.

Lemma crawl_loop_enough limit fuel : ∀ st,
  within_budget limit st → (fuel_left limit st ≤ fuel)%nat →
  crawl_loop limit fuel st = Some (run limit fuel st)
  ∧ running limit (run limit fuel st) = false.
Proof.
  induction fuel as [|fuel IH]; intros st Hin Hfuel.
  - simpl. destruct (running limit st) eqn:E; [|done].
    apply running_true in E as (_ & Hlt & _).
    unfold fuel_left in Hfuel.
    assert (size (seen st) < budget limit)%nat by (unfold budget; lia).
    assert (1 ≤ (budget limit - size (seen st)) * (budget limit + 1))%nat; [|lia].
    replace (budget limit - size (seen st))%nat
      with (S (budget limit - S (size (seen st)))) by lia.
    rewrite Nat.mul_succ_l. lia.
  - rewrite run_S. simpl. destruct (running limit st) eqn:E; [|done].
    destruct (step_decreases _ _ E Hin) as [Hin' Hlt].
    apply IH; [done|lia].
Qed.

Lemma run_stopped limit m st :
  running limit st = false → run limit m st = st.
Proof. intros H. destruct m; [done|]. by rewrite run_S, H. Qed.

(** More fuel than enough changes nothing. *)
Lemma crawl_loop_more limit fuel extra st :
  within_budget limit st → (fuel_left limit st ≤ fuel)%nat →
  crawl_loop limit (fuel + extra) st = crawl_loop limit fuel st.
Proof.
  intros Hin Hfuel.
  destruct (crawl_loop_enough limit fuel st Hin Hfuel) as [-> Hstop].
  destruct (crawl_loop_enough limit (fuel + extra) st Hin ltac:(lia)) as [-> _].
  by rewrite run_add, run_stopped.
Qed.

Lemma initial_within_budget limit v : within_budget limit (initial v).
Proof.
  unfold within_budget, budget.
  change (seen (initial v)) with (∅ : gset string).
  change (q (initial v)) with [start_url self].
  rewrite size_empty. simpl. lia.
Qed.

Lemma initial_fuel limit v : (fuel_left limit (initial v) ≤ crawl_fuel limit)%nat.
Proof.
  unfold fuel_left, crawl_fuel, budget.
  change (seen (initial v)) with (∅ : gset string).
  change (q (initial v)) with [start_url self].
  rewrite size_empty. simpl length.
  set (l := Z.to_nat (Z.max limit 1)). rewrite Nat.sub_0_r.
  rewrite (Nat.mul_add_distr_r l 1 (l + 1)). lia.
Qed.

(** *** The verification latch *)

Lemma step_log_modes limit st :
  ∃ more, log (step limit st) = log st ++ more
    ∧ Forall (λ r, request_mode r = verify st ∨ request_mode r = VerifyOff) more
    ∧ (verify (step limit st) = verify st ∨ verify (step limit st) = VerifyOff).
Proof.
  destruct (q st) as [|url q'] eqn:Hq.
  { unfold step. rewrite Hq. exists []. by rewrite (right_id_L [] (++)); auto. }
  destruct (decide (url ∈ seen st)) as [Hin|Hin].
  { rewrite (step_skip _ _ _ _ Hq Hin). simpl. exists [].
    by rewrite (right_id_L [] (++)); auto. }
  destruct (step_visit limit _ _ _ Hq Hin)
    as (_ & _ & [(_ & -> & ->)|[(_ & _ & -> & ->)|(_ & -> & ->)]]).
  - exists []. rewrite (right_id_L [] (++)). by auto.
  - exists [Fetch url (verify st)]. split; [done|]. split; [|by left].
    repeat constructor.
  - exists [Fetch url (verify st); Retry url VerifyOff].
    split; [done|]. split; [|by right]. repeat constructor; by right.
Qed.

Lemma run_latch limit n : ∀ st,
  verify st = VerifyOff →
  verify (run limit n st) = VerifyOff
  ∧ ∃ more, log (run limit n st) = log st ++ more
      ∧ Forall (λ r, request_mode r = VerifyOff) more.
Proof.
  induction n as [|n IH]; intros st Hoff.
  { split; [done|]. exists []. by rewrite (right_id_L [] (++)). }
  rewrite run_S. destruct (running limit st).
  2: { split; [done|]. exists []. by rewrite (right_id_L [] (++)). }
  destruct (step_log_modes limit st) as (more & Hlog & Hmodes & Hv).
  rewrite Hoff in Hmodes, Hv.
  assert (verify (step limit st) = VerifyOff) as Hoff' by by destruct Hv.
  destruct (IH _ Hoff') as (Hfin & more' & Hlog' & Hmodes').
  split; [done|]. exists (more ++ more'). split.
  - by rewrite Hlog', Hlog, (assoc_L (++)).
  - apply Forall_app. split; [|done].
    eapply Forall_impl; [exact Hmodes|]. by intros r [?|?].
Qed.

Lemma step_ssl_error limit st url q' :
  q st = url :: q' → url ∉ seen st →
  net (log st) (Fetch url (verify st)) = SSLError →
  verify (step limit st) = VerifyOff
  ∧ log (step limit st) = log st ++ [Fetch url (verify st); Retry url VerifyOff].
Proof.
  intros Hq Hin Hssl.
  destruct (step_visit limit _ _ _ Hq Hin)
    as (_ & _ & [(Hsl & _)|[(Hne & _)|(_ & -> & ->)]]); [|done..].
  by rewrite Hssl in Hsl.
Qed.

Lemma step_retry_fails limit st url q' :
  q st = url :: q' → url ∉ seen st →
  net (log st) (Fetch url (verify st)) = SSLError →
  (∀ sc ct soup,
      net (log st ++ [Fetch url (verify st)]) (Retry url VerifyOff)
      ≠ Response sc ct soup) →
  step limit st
  = State ({[url]} ∪ seen st) q' (results st) VerifyOff
          (log st ++ [Fetch url (verify st); Retry url VerifyOff]).
Proof.
  intros Hq Hin Hssl Hfail. unfold step.
  rewrite Hq, decide_False, Hssl by done. simpl.
  rewrite <-(assoc_L (++)). simpl.
  destruct (net _ (Retry _ _)) as [| |sc ct soup|] eqn:E; [done|done| |done].
  by destruct (Hfail sc ct soup).
Qed.

Lemma step_retry_succeeds limit st url q' sc ct soup :
  q st = url :: q' → url ∉ seen st →
  net (log st) (Fetch url (verify st)) = SSLError →
  net (log st ++ [Fetch url (verify st)]) (Retry url VerifyOff)
  = Response sc ct soup →
  step limit st
  = process_response limit url sc ct soup
      (State ({[url]} ∪ seen st) q' (results st) VerifyOff
             (log st ++ [Fetch url (verify st); Retry url VerifyOff])).
Proof.
  intros Hq Hin Hssl Hok. unfold step.
  rewrite Hq, decide_False, Hssl by done. simpl.
  rewrite Hok, <-(assoc_L (++)). done.
Qed.

Lemma step_first_succeeds limit st url q' sc ct soup :
  q st = url :: q' → url ∉ seen st →
  net (log st) (Fetch url (verify st)) = Response sc ct soup →
  step limit st
  = process_response limit url sc ct soup
      (State ({[url]} ∪ seen st) q' (results st) (verify st)
             (log st ++ [Fetch url (verify st)])).
Proof.
  intros Hq Hin Hok. unfold step. by rewrite Hq, decide_False, Hok.
Qed.

End Crawl.

(** C1, as the claim states it, fails: links are stripped of their
    fragment before they are queued, the start URL is queued as it was
    given.  A crawl started at [https://example.edu/#top], on a site
    whose page links to [https://example.edu/], asks for both: after
    the fragments are stripped, the same URL has been fetched twice. *)
Lemma start_fragment_fetched_twice :
  new_scraper Urllib.netloc top_home 1000 = Some top_scraper
  ∧ get_links Urllib.netloc urljoin_absolute top_scraper top_page top_home
    = [site_home]
  ∧ fetched (log (run Urllib.netloc urljoin_absolute top_net top_scraper 1000 2
                    (initial top_scraper VerifyDefault)))
    = [top_home; site_home]
  ∧ Str.before "#"%char top_home = site_home
  ∧ Str.before "#"%char site_home = site_home
  ∧ ¬ NoDup (Str.before "#"%char
               <$> fetched (log (run Urllib.netloc urljoin_absolute top_net
                                   top_scraper 1000 2
                                   (initial top_scraper VerifyDefault)))).
Proof.
  split; [vm_compute; reflexivity|]. split; [vm_compute; reflexivity|].
  split; [vm_compute; reflexivity|]. split; [vm_compute; reflexivity|].
  split; [vm_compute; reflexivity|].
  replace (fetched _) with [top_home; site_home] by (vm_compute; reflexivity).
  intros [Hin _]%NoDup_cons. apply Hin. vm_compute. apply list_elem_of_here.
Qed.

(** C1, amended: a URL taken from the queue that is already in the
    visited set is dropped and nothing is asked of the network; any
    other URL is put in the visited set and then asked for -- not at
    all if the sleep before the call raises, a second time only if the
    first call raised [SSLError]; the visited set never loses a member,
    in one iteration or over any number of them; so in every crawl,
    after any number of iterations, the URLs asked for by the first call
    of the loop are pairwise distinct as they were queued, so are the
    URLs asked for again after an [SSLError], and each of them is in the
    visited set; every URL queued or asked for is free of fragments, the
    start URL apart, which is taken as it was given; and when the start
    URL has no fragment either, the URLs asked for are pairwise distinct
    after fragment stripping too. *)
Theorem no_url_fetched_twice :
  (∀ urlparse_netloc urljoin net self limit st url q',
      q st = url :: q' → url ∈ seen st →
      step urlparse_netloc urljoin net self limit st
      = State (seen st) q' (results st) (verify st) (log st))
  ∧ (∀ urlparse_netloc urljoin net self limit st url q',
      q st = url :: q' → url ∉ seen st →
      seen (step urlparse_netloc urljoin net self limit st) = {[url]} ∪ seen st
      ∧ ((net (log st) (Fetch url (verify st)) = SleepError
          ∧ log (step urlparse_netloc urljoin net self limit st) = log st)
         ∨ (net (log st) (Fetch url (verify st)) ≠ SSLError
            ∧ net (log st) (Fetch url (verify st)) ≠ SleepError
            ∧ log (step urlparse_netloc urljoin net self limit st)
              = log st ++ [Fetch url (verify st)])
         ∨ (net (log st) (Fetch url (verify st)) = SSLError
            ∧ log (step urlparse_netloc urljoin net self limit st)
              = log st ++ [Fetch url (verify st); Retry url VerifyOff])))
  ∧ (∀ urlparse_netloc urljoin net self limit st,
      seen st ⊆ seen (step urlparse_netloc urljoin net self limit st))
  ∧ (∀ urlparse_netloc urljoin net self limit v n m,
      seen (run urlparse_netloc urljoin net self limit n (initial self v))
      ⊆ seen (run urlparse_netloc urljoin net self limit (n + m) (initial self v)))
  ∧ (∀ urlparse_netloc urljoin net self limit v n,
      fetch_once (run urlparse_netloc urljoin net self limit n (initial self v)))
  ∧ (∀ urlparse_netloc urljoin net self limit v n,
      stripped_frontier self
        (run urlparse_netloc urljoin net self limit n (initial self v)))
  ∧ (∀ urlparse_netloc urljoin net self limit v n,
      Str.has_char "#"%char (start_url self) = false →
      NoDup (Str.before "#"%char
               <$> fetched (log (run urlparse_netloc urljoin net self limit n
                                   (initial self v))))).
Proof.
  split; [exact step_skip|].
  split; [|split; [exact step_seen_grows|split; [|split; [|split]]]].
  - intros U J net self limit st url q' Hq Hin.
    destruct (step_visit U J net self limit _ _ _ Hq Hin)
      as (Hs & _ & [(Hn & Hl & _)|[(Hn & Hn' & Hl & _)|(Hn & Hl & _)]]);
      (split; [done|]); auto.
  - intros. rewrite run_add. apply run_seen_grows.
  - intros. apply run_fetch_once, initial_fetch_once.
  - intros. apply run_stripped, initial_stripped.
  - intros U J net self limit v n Hstart.
    eapply fetched_strip_unique; [exact Hstart|..].
    + apply run_fetch_once, initial_fetch_once.
    + apply run_stripped, initial_stripped.
Qed.

(** On the three-page site, whose start URL has no fragment, the three
    URLs asked for stay distinct when their fragments are stripped. *)
Lemma no_url_fetched_twice_witness :
  Str.has_char "#"%char (start_url site_scraper) = false
  ∧ fetched (log (run Urllib.netloc urljoin_absolute site_net site_scraper 1000 3
                    (initial site_scraper VerifyDefault)))
    = [site_home; site_b; site_a]
  ∧ NoDup (Str.before "#"%char
             <$> fetched (log (run Urllib.netloc urljoin_absolute site_net
                                 site_scraper 1000 3
                                 (initial site_scraper VerifyDefault)))).
Proof.
  split; [reflexivity|]. split; [vm_compute; reflexivity|].
  apply (proj2 (proj2 (proj2 (proj2 (proj2 (proj2 no_url_fetched_twice)))))
           Urllib.netloc urljoin_absolute site_net site_scraper 1000%Z
           VerifyDefault 3).
  reflexivity.
Defined.

(** C6: when the first call for a URL raises [SSLError] the session's
    verification is switched off and the URL is asked for once more, with
    verification off; if that second call raises anything the URL is
    given up, with the switch left off and the loop going on from the
    rest of the queue; if it returns a response the page is processed as
    the response of a first call is; and once verification is off it
    stays off and every later request is made with it off. *)
Theorem tls_downgrade_and_retry :
  (∀ urlparse_netloc urljoin net self limit st url q',
      q st = url :: q' → url ∉ seen st →
      net (log st) (Fetch url (verify st)) = SSLError →
      verify (step urlparse_netloc urljoin net self limit st) = VerifyOff
      ∧ log (step urlparse_netloc urljoin net self limit st)
        = log st ++ [Fetch url (verify st); Retry url VerifyOff])
  ∧ (∀ urlparse_netloc urljoin net self limit st url q',
      q st = url :: q' → url ∉ seen st →
      net (log st) (Fetch url (verify st)) = SSLError →
      (∀ sc ct soup,
          net (log st ++ [Fetch url (verify st)]) (Retry url VerifyOff)
          ≠ Response sc ct soup) →
      step urlparse_netloc urljoin net self limit st
      = State ({[url]} ∪ seen st) q' (results st) VerifyOff
              (log st ++ [Fetch url (verify st); Retry url VerifyOff]))
  ∧ (∀ urlparse_netloc urljoin net self limit st url q' sc ct soup,
      q st = url :: q' → url ∉ seen st →
      net (log st) (Fetch url (verify st)) = SSLError →
      net (log st ++ [Fetch url (verify st)]) (Retry url VerifyOff)
      = Response sc ct soup →
      step urlparse_netloc urljoin net self limit st
      = process_response urlparse_netloc urljoin self limit url sc ct soup
          (State ({[url]} ∪ seen st) q' (results st) VerifyOff
                 (log st ++ [Fetch url (verify st); Retry url VerifyOff])))
  ∧ (∀ urlparse_netloc urljoin net self limit st url q' sc ct soup,
      q st = url :: q' → url ∉ seen st →
      net (log st) (Fetch url (verify st)) = Response sc ct soup →
      step urlparse_netloc urljoin net self limit st
      = process_response urlparse_netloc urljoin self limit url sc ct soup
          (State ({[url]} ∪ seen st) q' (results st) (verify st)
                 (log st ++ [Fetch url (verify st)])))
  ∧ (∀ urlparse_netloc urljoin net self limit n st,
      verify st = VerifyOff →
      verify (run urlparse_netloc urljoin net self limit n st) = VerifyOff
      ∧ ∃ more, log (run urlparse_netloc urljoin net self limit n st)
                = log st ++ more
          ∧ Forall (λ r, request_mode r = VerifyOff) more).
Proof.
  split; [exact step_ssl_error|]. split; [exact step_retry_fails|].
  split; [exact step_retry_succeeds|]. split; [exact step_first_succeeds|].
  intros. by apply run_latch.
Qed.

(** The retry on a site whose first call fails: the start page is asked
    for twice, the second time without verification, its profile is
    kept, and the pages after it are asked for without verification; on
    a network that always fails the start page is given up after the
    second call. *)
Lemma tls_downgrade_and_retry_witness :
  let st := initial site_scraper VerifyDefault in
  let st' := run Urllib.netloc urljoin_absolute tls_net site_scraper 1000 3 st in
  (verify (step Urllib.netloc urljoin_absolute tls_net site_scraper 1000 st) = VerifyOff
   ∧ log (step Urllib.netloc urljoin_absolute tls_net site_scraper 1000 st)
     = [Fetch site_home VerifyDefault; Retry site_home VerifyOff])
  ∧ step Urllib.netloc urljoin_absolute broken_net site_scraper 1000 st
    = State {[site_home]} [] [] VerifyOff
            [Fetch site_home VerifyDefault; Retry site_home VerifyOff]
  ∧ log st'
    = [Fetch site_home VerifyDefault; Retry site_home VerifyOff;
       Fetch site_b VerifyOff; Fetch site_a VerifyOff]
  ∧ results st' = [doe_profile]
  ∧ verify st' = VerifyOff.
Proof.
  split; [|split].
  - apply (proj1 tls_downgrade_and_retry Urllib.netloc urljoin_absolute tls_net
             site_scraper 1000%Z (initial site_scraper VerifyDefault)
             site_home []).
    + reflexivity.
    + apply not_elem_of_empty.
    + reflexivity.
  - rewrite (proj1 (proj2 tls_downgrade_and_retry) Urllib.netloc urljoin_absolute
               broken_net site_scraper 1000%Z (initial site_scraper VerifyDefault)
               site_home []).
    + simpl. by rewrite (right_id_L ∅ (∪)).
    + reflexivity.
    + apply not_elem_of_empty.
    + reflexivity.
    + intros sc ct soup. discriminate.
  - repeat split; vm_compute; reflexivity.
Defined.

(** C9: with the fuel [crawl_fuel] the loop runs to its end, whatever the
    network answers and whatever the limit, more fuel gives the same
    final state, and so [crawl] returns; every
    iteration either drops a visited URL from the queue, leaving the
    visited set as it is, or adds a new URL to the visited set; the
    visited set never holds more URLs than the limit allows; once the
    visited URLs and the queue together reach the limit no link is
    queued; the visited URLs and the queue together never exceed the
    budget; and every iteration lowers the measure [fuel_left]. *)
Theorem crawl_terminates :
  (∀ urlparse_netloc urljoin net self limit v,
      crawl_loop urlparse_netloc urljoin net self limit (crawl_fuel limit)
        (initial self v)
      = Some (run urlparse_netloc urljoin net self limit (crawl_fuel limit)
                (initial self v))
      ∧ running limit (run urlparse_netloc urljoin net self limit
                         (crawl_fuel limit) (initial self v)) = false)
  ∧ (∀ urlparse_netloc urljoin net self limit v extra,
      crawl_loop urlparse_netloc urljoin net self limit (crawl_fuel limit + extra)
        (initial self v)
      = crawl_loop urlparse_netloc urljoin net self limit (crawl_fuel limit)
          (initial self v))
  ∧ (∀ urlparse_netloc urljoin net self limit v,
      is_Some (crawl urlparse_netloc urljoin net self limit v))
  ∧ (∀ urlparse_netloc urljoin net self limit st,
      running limit st = true →
      ∃ url q', q st = url :: q'
        ∧ ((url ∈ seen st
            ∧ seen (step urlparse_netloc urljoin net self limit st) = seen st
            ∧ q (step urlparse_netloc urljoin net self limit st) = q')
           ∨ ((url ∉ seen st)
              ∧ seen (step urlparse_netloc urljoin net self limit st)
                = {[url]} ∪ seen st
              ∧ size (seen (step urlparse_netloc urljoin net self limit st))
                = S (size (seen st)))))
  ∧ (∀ urlparse_netloc urljoin net self limit v n,
      (Z.of_nat (size (seen (run urlparse_netloc urljoin net self limit n
                               (initial self v))))
       ≤ Z.max 0 limit)%Z)
  ∧ (∀ limit seen links q,
      (limit ≤ Z.of_nat (size seen) + Z.of_nat (length q))%Z →
      enqueue_links limit seen links q = q)
  ∧ (∀ urlparse_netloc urljoin net self limit v n,
      within_budget limit
        (run urlparse_netloc urljoin net self limit n (initial self v)))
  ∧ (∀ urlparse_netloc urljoin net self limit st,
      running limit st = true → within_budget limit st →
      (fuel_left limit (step urlparse_netloc urljoin net self limit st)
       < fuel_left limit st)%nat).
Proof.
  split; [|split; [|split; [|split; [exact step_progress|split; [|split; [|split]]]]]].
  - intros. apply crawl_loop_enough;
      [apply initial_within_budget|apply initial_fuel].
  - intros. apply crawl_loop_more;
      [apply initial_within_budget|apply initial_fuel].
  - intros U J net self limit v. unfold crawl.
    destruct (crawl_loop_enough U J net self (effective_limit self limit)
                (crawl_fuel (effective_limit self limit)) (initial self v))
      as [-> _]; [apply initial_within_budget|apply initial_fuel|].
    simpl. eauto.
  - intros. apply run_seen_bound.
    change (seen (initial self v)) with (∅ : gset string).
    rewrite size_empty. lia.
  - intros. by apply enqueue_links_full.
  - intros. apply run_within_budget, initial_within_budget.
  - intros U J net self limit st Hrun Hin.
    by destruct (step_decreases U J net self limit st Hrun Hin).
Qed.

(** A crawl of the three-page site: it ends after three iterations with
    three URLs visited and the queue empty. *)
Lemma crawl_terminates_witness :
  let st := initial site_scraper VerifyDefault in
  (fuel_left 1000 (step Urllib.netloc urljoin_absolute site_net site_scraper 1000 st)
   < fuel_left 1000 st)%nat
  ∧ crawl Urllib.netloc urljoin_absolute site_net site_scraper (Some 3%Z) VerifyDefault
    = Some [].
Proof.
  split.
  - apply (proj2 (proj2 (proj2 (proj2 (proj2 (proj2 (proj2 crawl_terminates))))))
             Urllib.netloc urljoin_absolute site_net site_scraper 1000%Z
             (initial site_scraper VerifyDefault)).
    + reflexivity.
    + unfold within_budget. vm_compute. lia.
  - vm_compute. reflexivity.
Defined.

(** * Further properties *)

(** ** The normaliser *)

Lemma collapse_squeeze s : ∀ b, squeeze (collapse b s) = squeeze s.
Proof.
  unfold squeeze. induction s as [|c s IH]; intros b; [done|].
  cbn [collapse Urllib.remove]. destruct (Chr.is_space c) eqn:Hc.
  - destruct b; [apply IH|]. cbn [Urllib.remove].
    change (Chr.is_space " ") with true. cbn iota. apply IH.
  - cbn [Urllib.remove]. by rewrite Hc, IH.
Qed.

Lemma lstrip_squeeze s : squeeze (Str.lstrip_with Chr.is_space s) = squeeze s.
Proof.
  unfold squeeze. induction s as [|c s IH]; [done|].
  cbn [Str.lstrip_with Urllib.remove]. destruct (Chr.is_space c) eqn:Hc; [done|].
  cbn [Urllib.remove]. by rewrite Hc.
Qed.

Lemma rstrip_squeeze s : squeeze (Str.rstrip_with Chr.is_space s) = squeeze s.
Proof.
  unfold squeeze. induction s as [|c s IH]; [done|].
  cbn [Str.rstrip_with Urllib.remove]. rewrite <-IH.
  destruct (Str.rstrip_with Chr.is_space s) as [|d r].
  - destruct (Chr.is_space c) eqn:Hc; [done|]. cbn [Urllib.remove]. by rewrite Hc.
  - cbn [Urllib.remove]. done.
Qed.

Lemma squeeze_empty s : squeeze s = EmptyString ↔ Str.all_chars Chr.is_space s = true.
Proof.
  unfold squeeze. induction s as [|c s IH]; [done|].
  cbn [Urllib.remove Str.all_chars]. destruct (Chr.is_space c); [done|].
  split; discriminate.
Qed.

Lemma tidy_collapse s : ∀ b, tidy b s = true → collapse b s = s.
Proof.
  induction s as [|c s IH]; intros b H; [done|].
  rewrite tidy_cons in H. cbn [collapse]. destruct (Chr.is_space c) eqn:Hc.
  - apply andb_true_iff in H as [[Hsp Hb]%andb_true_iff H].
    apply Ascii.eqb_eq in Hsp as ->. destruct b; [done|]. by rewrite IH.
  - by rewrite IH.
Qed.

Lemma tidy_rstrip s : ∀ b, tidy b s = true → Str.rstrip_with Chr.is_space s = s.
Proof.
  induction s as [|c s IH]; intros b H; [done|].
  rewrite tidy_cons in H. cbn [Str.rstrip_with]. destruct (Chr.is_space c) eqn:Hc.
  - apply andb_true_iff in H as [_ H]. rewrite (IH _ H).
    destruct s; [done|done].
  - rewrite (IH _ H). by destruct s.
Qed.

Lemma tidy_lstrip s : tidy true s = true → Str.lstrip_with Chr.is_space s = s.
Proof.
  destruct s as [|c s]; [done|]. rewrite tidy_cons. cbn [Str.lstrip_with].
  destruct (Chr.is_space c); [|done].
  intros [[_ ?]%andb_true_iff _]%andb_true_iff. done.
Qed.

(** X1: the text [normalize_text] returns has no whitespace at either
    end, and inside it only single spaces. *)
Theorem normalize_text_is_normal x : ws_normal (normalize_text x).
Proof.
  unfold normalize_text. destruct x as [|c x]; [by left|].
  cbn [Str.is_empty]. unfold Re.sub, Str.strip.
  rewrite (proj1 (sub_go_collapse (String c x))).
  apply rstrip_tidy, (lstrip_spaced false), collapse_spaced.
Qed.

Lemma normalize_text_squeeze x : squeeze (normalize_text x) = squeeze x.
Proof.
  unfold normalize_text. destruct x as [|c x]; [done|].
  cbn [Str.is_empty]. unfold Re.sub, Str.strip.
  rewrite (proj1 (sub_go_collapse (String c x))).
  by rewrite rstrip_squeeze, lstrip_squeeze, collapse_squeeze.
Qed.

(** X2: the texts [normalize_text] leaves as they are are exactly the
    whitespace-normal ones; in particular normalising twice is
    normalising once. *)
Theorem normalize_text_fixed_points :
  (∀ x, normalize_text x = x ↔ ws_normal x)
  ∧ (∀ x, normalize_text (normalize_text x) = normalize_text x).
Proof.
  assert (∀ x, ws_normal x → normalize_text x = x) as Hfix.
  { intros x [->|Ht]; [done|]. unfold normalize_text.
    destruct x as [|c x]; [done|]. cbn [Str.is_empty]. unfold Re.sub, Str.strip.
    rewrite (proj1 (sub_go_collapse (String c x))).
    assert (tidy false (String c x) = true) as Hf.
    { rewrite tidy_cons in *. destruct (Chr.is_space c); [|done].
      by apply andb_true_iff in Ht as [[_ ?]%andb_true_iff _]. }
    rewrite (tidy_collapse _ _ Hf), (tidy_lstrip _ Ht). by eapply tidy_rstrip. }
  split.
  - intros x. split; [|apply Hfix]. intros <-. apply normalize_text_normal.
  - intros x. apply Hfix, normalize_text_normal.
Qed.

(** X3: [normalize_text] touches whitespace only: the other characters
    of the text come out unchanged and in the same order. *)
Theorem normalize_text_keeps_characters x :
  squeeze (normalize_text x) = squeeze x.
Proof. apply normalize_text_squeeze. Qed.

(** X4: [normalize_text] returns the empty text exactly for the texts
    made of whitespace only (the empty text among them). *)
Theorem normalize_text_empty_iff x :
  normalize_text x = EmptyString ↔ Str.all_chars Chr.is_space x = true.
Proof.
  rewrite <-squeeze_empty, <-normalize_text_squeeze. split.
  - by intros ->.
  - intros Hsq. destruct (normalize_text_normal x) as [?|Ht]; [done|].
    apply squeeze_empty in Hsq.
    destruct (normalize_text x) as [|c s]; [done|].
    rewrite tidy_cons in Ht. cbn [Str.all_chars] in Hsq.
    apply andb_true_iff in Hsq as [Hc _]. rewrite Hc in Ht.
    by apply andb_true_iff in Ht as [[_ ?]%andb_true_iff _].
Qed.

(** ** The pattern extractors *)

Lemma has_char_app c s1 s2 :
  Str.has_char c (s1 +:+ s2) = Str.has_char c s1 || Str.has_char c s2.
Proof.
  induction s1 as [|a s1 IH]; [done|].
  change (String a s1 +:+ s2) with (String a (s1 +:+ s2)).
  cbn [Str.has_char]. by rewrite IH, orb_assoc.
Qed.

Lemma all_chars_app p s1 s2 :
  Str.all_chars p (s1 +:+ s2) = Str.all_chars p s1 && Str.all_chars p s2.
Proof.
  induction s1 as [|a s1 IH]; [done|].
  change (String a s1 +:+ s2) with (String a (s1 +:+ s2)).
  cbn [Str.all_chars]. by rewrite IH, andb_assoc.
Qed.

Lemma email_re_shaped e : shaped email_re e → email_shaped e.
Proof.
  unfold email_re. intros H.
  inversion H as [|a1 r1 loc m1 Hs1 Hl1 _ H1]; subst; clear H.
  inversion H1 as [|a2 r2 p2 m2 Hs2 Hl2 Hh2 H2]; subst; clear H1.
  inversion H2 as [|a3 r3 dom m3 Hs3 Hl3 _ H3]; subst; clear H2.
  inversion H3 as [|a4 r4 p4 m4 Hs4 Hl4 Hh4 H4]; subst; clear H3.
  inversion H4 as [|a5 r5 tld m5 Hs5 Hl5 _ H5]; subst; clear H4.
  inversion H5; subst; clear H5.
  destruct (all_chars_length_1 _ _ Hs2 Hl2 Hh2) as (c2 & -> & Hc2).
  destruct (all_chars_length_1 _ _ Hs4 Hl4 Hh4) as (c4 & -> & Hc4).
  cbn [Re.cls Re.one] in Hc2, Hc4. unfold Chr.just in Hc2, Hc4.
  apply Ascii.eqb_eq in Hc2 as <-. apply Ascii.eqb_eq in Hc4 as <-.
  exists loc, dom, tld. rewrite app_nil_r. by repeat split.
Qed.

Lemma extract_emails_sound text e :
  e ∈ extract_emails text → occurs_in e text ∧ email_shaped e.
Proof.
  unfold extract_emails. rewrite elem_of_list_to_set.
  intros [Hs Ho]%findall_go_sound. split; [done|]. by apply email_re_shaped.
Qed.

(** X5: every address [extract_emails] returns is a piece of the text
    made of a non-empty local part, [@], a non-empty domain part, a dot
    and at least two letters. *)
Theorem extract_emails_shape text e :
  e ∈ extract_emails text → occurs_in e text ∧ email_shaped e.
Proof. apply extract_emails_sound. Qed.

Lemma extract_emails_shape_witness :
  occurs_in "john.doe@iiuc.ac.bd" "contact john.doe@iiuc.ac.bd now"
  ∧ email_shaped "john.doe@iiuc.ac.bd".
Proof.
  apply (extract_emails_shape "contact john.doe@iiuc.ac.bd now").
  vm_compute. reflexivity.
Defined.

(** X6: a text without [@] yields no email address. *)
Theorem extract_emails_needs_at text :
  Str.has_char "@"%char text = false → extract_emails text = ∅.
Proof.
  intros Hno. apply elem_of_equiv_empty_L. intros e He.
  apply extract_emails_sound in He
    as [(pre & post & ->) (loc & dom & tld & -> & _)].
  rewrite !has_char_app in Hno. cbn in Hno.
  by rewrite !orb_true_r in Hno.
Qed.

Lemma extract_emails_needs_at_witness :
  extract_emails "write to the dean, room 12" = ∅.
Proof. apply extract_emails_needs_at. reflexivity. Defined.

(** X7: a text without a decimal digit yields no phone number. *)
Theorem extract_phones_needs_digit text :
  digitless text → extract_phones text = [].
Proof.
  intros Hno. apply elem_of_nil_inv. intros s Hs.
  unfold extract_phones in Hs. rewrite elem_of_dict_fromkeys in Hs.
  apply list_elem_of_fmap in Hs as (m & _ & Hm).
  apply findall_go_sound in Hm as [Hshape (pre & post & ->)].
  apply phone_re_shaped in Hshape
    as (sign & d1 & mid & d2 & -> & _ & Hd1 & _).
  unfold digitless in Hno. rewrite !all_chars_app in Hno.
  cbn [Str.all_chars] in Hno. rewrite Hd1 in Hno. cbn in Hno.
  by rewrite !andb_false_r in Hno.
Qed.

Lemma extract_phones_needs_digit_witness :
  extract_phones "call the office (mornings) - ask for the dean" = [].
Proof. apply extract_phones_needs_digit. reflexivity. Defined.

(** ** The harvested map *)

Lemma lower_char_idem c : Chr.lower (Chr.lower c) = Chr.lower c.
Proof. destruct c as [[] [] [] [] [] [] [] []]; reflexivity. Qed.

Lemma lower_char_colon c : Ascii.eqb (Chr.lower c) ":" = Ascii.eqb c ":".
Proof. destruct c as [[] [] [] [] [] [] [] []]; reflexivity. Qed.

Lemma lower_idem s : Str.lower (Str.lower s) = Str.lower s.
Proof.
  induction s as [|c s IH]; [done|]. cbn [Str.lower].
  by rewrite lower_char_idem, IH.
Qed.

Section Pieces.

Variable p : ascii → bool.

Lemma all_chars_lstrip q s :
  Str.all_chars p s = true → Str.all_chars p (Str.lstrip_with q s) = true.
Proof.
  induction s as [|c s IH]; [done|]. cbn [Str.lstrip_with].
  intros H. destruct (q c); [|done]. apply IH.
  by apply andb_true_iff in H as [_ ?].
Qed.

Lemma all_chars_rstrip q s :
  Str.all_chars p s = true → Str.all_chars p (Str.rstrip_with q s) = true.
Proof.
  induction s as [|c s IH]; [done|]. cbn [Str.rstrip_with Str.all_chars].
  intros [Hc Hs]%andb_true_iff. specialize (IH Hs).
  destruct (Str.rstrip_with q s) as [|d r].
  - destruct (q c); [done|]. cbn [Str.all_chars]. by rewrite Hc.
  - cbn [Str.all_chars] in *. by rewrite Hc, IH.
Qed.

Lemma all_chars_before c s :
  Str.all_chars p s = true → Str.all_chars p (Str.before c s) = true.
Proof.
  induction s as [|a s IH]; [done|]. cbn [Str.before Str.all_chars].
  intros [Ha Hs]%andb_true_iff. destruct (Ascii.eqb a c); [done|].
  cbn [Str.all_chars]. by rewrite Ha, IH.
Qed.

End Pieces.

Lemma lower_is_low s : Str.all_chars is_low (Str.lower s) = true.
Proof.
  induction s as [|c s IH]; [done|]. cbn [Str.lower Str.all_chars].
  rewrite IH, andb_true_r. unfold is_low. rewrite lower_char_idem.
  apply Ascii.eqb_refl.
Qed.

Lemma is_low_lower s : Str.all_chars is_low s = true → Str.lower s = s.
Proof.
  induction s as [|c s IH]; [done|]. cbn [Str.lower Str.all_chars].
  intros [Hc Hs]%andb_true_iff. apply Ascii.eqb_eq in Hc. by rewrite Hc, IH.
Qed.

Lemma lower_not_colon s :
  Str.all_chars not_colon s = true → Str.all_chars not_colon (Str.lower s) = true.
Proof.
  induction s as [|c s IH]; [done|]. cbn [Str.lower Str.all_chars].
  intros [Hc Hs]%andb_true_iff. rewrite (IH Hs), andb_true_r.
  unfold not_colon in *. by rewrite lower_char_colon.
Qed.

Lemma before_not_colon s : Str.all_chars not_colon (Str.before ":" s) = true.
Proof.
  induction s as [|a s IH]; [done|]. cbn [Str.before].
  destruct (Ascii.eqb a ":") eqn:E; [done|]. cbn [Str.all_chars].
  unfold not_colon at 1. by rewrite E, IH.
Qed.

Lemma not_colon_no_end k :
  Str.all_chars not_colon k = true → Str.endswith ":" k = false.
Proof.
  intros H. apply not_true_is_false. intros [pre ->]%endswith_spec.
  rewrite all_chars_app in H. by rewrite andb_comm in H.
Qed.

Lemma rstrip_last q s pre c :
  Str.rstrip_with q s = pre +:+ String c EmptyString → q c = false.
Proof.
  revert pre. induction s as [|a s IH]; intros pre H.
  - by destruct pre.
  - cbn [Str.rstrip_with] in H.
    destruct (Str.rstrip_with q s) as [|d r] eqn:Hr.
    + destruct (q a) eqn:Ha; [by destruct pre|].
      destruct pre as [|b [|b' pre]]; [|done..]. by injection H as ->.
    + destruct pre as [|b pre]; [done|]. injection H as -> H. by eapply IH.
Qed.

Lemma rstrip_colon_no_end s :
  Str.endswith ":" (Str.rstrip_with (Chr.just ":") s) = false.
Proof.
  apply not_true_is_false. intros [pre H]%endswith_spec.
  apply rstrip_last in H. by vm_compute in H.
Qed.

Lemma label_settled n : settled_key (label_of n).
Proof.
  split; [|apply rstrip_colon_no_end].
  apply is_low_lower, all_chars_rstrip, lower_is_low.
Qed.

Lemma put_labelled_settled (pairs : gmap string string) k v :
  settled_key k →
  map_Forall (λ k _, settled_key k) pairs →
  map_Forall (λ k _, settled_key k) (put_labelled pairs k v).
Proof.
  intros Hk Hm. unfold put_labelled. destruct (Str.is_empty k); [done|].
  by apply map_Forall_insert_2.
Qed.

Lemma put_line_settled (pairs : gmap string string) p :
  map_Forall (λ k _, settled_key k) pairs →
  map_Forall (λ k _, settled_key k) (put_line pairs p).
Proof.
  intros Hm. unfold put_line. destruct (Str.has_char _ _); [|done].
  destruct (_ && _); [|done]. unfold setdefault. destruct (pairs !! _); [done|].
  apply map_Forall_insert_2; [|done]. unfold Str.strip. split.
  - apply is_low_lower, all_chars_rstrip, all_chars_lstrip, lower_is_low.
  - apply not_colon_no_end, all_chars_rstrip, all_chars_lstrip, lower_not_colon,
      before_not_colon.
Qed.

(** X8: every key of the map the harvester returns is in lower case
    ([str.lower] leaves it as it is) and does not end with a colon. *)
Theorem harvested_keys_settled soup :
  map_Forall (λ k _, settled_key k) (find_label_value_pairs soup).
Proof.
  unfold find_label_value_pairs, text_pass, table_pass, dl_pass.
  apply (foldl_preserves (map_Forall (λ k _, settled_key k))).
  { intros m p. apply put_line_settled. }
  apply (foldl_preserves (map_Forall (λ k _, settled_key k))).
  { intros m table. apply (foldl_preserves (map_Forall (λ k _, settled_key k))).
    intros m' row Hm'. unfold put_row.
    destruct (Dom.find_all _ row) as [|c0 [|c1 cols]]; [done..|].
    apply put_labelled_settled; [apply label_settled|done]. }
  apply (foldl_preserves (map_Forall (λ k _, settled_key k))).
  { intros m dl. apply (foldl_preserves (map_Forall (λ k _, settled_key k))).
    intros m' [dt dd] Hm'. apply put_labelled_settled; [apply label_settled|done]. }
  apply map_Forall_empty.
Qed.

Lemma tidy_spaced s : ∀ b, tidy b s = true → spaced b s = true.
Proof.
  induction s as [|c s IH]; intros b H; [done|].
  rewrite tidy_cons in H. cbn [spaced]. destruct (Chr.is_space c).
  - apply andb_true_iff in H as [-> H]. by rewrite (IH _ H).
  - by apply IH.
Qed.

Lemma spaced_weaken s : ∀ b, spaced b s = true → spaced false s = true.
Proof.
  destruct s as [|c s]; intros b H; [done|]. cbn [spaced] in *.
  destruct (Chr.is_space c); [|done].
  apply andb_true_iff in H as [[-> _]%andb_true_iff ->]. done.
Qed.

Lemma spaced_after c s : ∀ b, spaced b s = true → spaced false (Str.after c s) = true.
Proof.
  induction s as [|a s IH]; intros b H; [done|]. cbn [Str.after].
  assert (∃ b', spaced b' s = true) as [b' Hs].
  { cbn [spaced] in H. destruct (Chr.is_space a); [|by eauto].
    apply andb_true_iff in H as [_ H]. by eauto. }
  destruct (Ascii.eqb a c); [by eapply spaced_weaken|by eapply IH].
Qed.

Lemma normal_spaced s : ws_normal s → spaced true s = true.
Proof. intros [->|H]; [done|]. by apply tidy_spaced. Qed.

Lemma put_line_normal (pairs : gmap string string) p :
  map_Forall (λ _ v, ws_normal v) pairs →
  map_Forall (λ _ v, ws_normal v) (put_line pairs p).
Proof.
  intros Hm. unfold put_line. destruct (Str.has_char _ _); [|done].
  destruct (_ && _); [|done]. unfold setdefault. destruct (pairs !! _); [done|].
  apply map_Forall_insert_2; [|done]. unfold Str.strip.
  apply rstrip_tidy, (lstrip_spaced false), (spaced_after _ _ true), normal_spaced,
    normalize_text_normal.
Qed.

Lemma find_label_value_pairs_normal soup :
  map_Forall (λ _ v, ws_normal v) (find_label_value_pairs soup).
Proof.
  assert (∀ (m : gmap string string) k n,
    map_Forall (λ _ v, ws_normal v) m →
    map_Forall (λ _ v, ws_normal v) (put_labelled m k (value_of n))) as Hput.
  { intros m k n Hm. unfold put_labelled. destruct (Str.is_empty k); [done|].
    apply map_Forall_insert_2; [apply normalize_text_normal|done]. }
  unfold find_label_value_pairs, text_pass, table_pass, dl_pass.
  apply (foldl_preserves (map_Forall (λ _ v, ws_normal v))).
  { intros m p. apply put_line_normal. }
  apply (foldl_preserves (map_Forall (λ _ v, ws_normal v))).
  { intros m table. apply (foldl_preserves (map_Forall (λ _ v, ws_normal v))).
    intros m' row Hm'. unfold put_row.
    destruct (Dom.find_all _ row) as [|c0 [|c1 cols]]; [done..|]. by apply Hput. }
  apply (foldl_preserves (map_Forall (λ _ v, ws_normal v))).
  { intros m dl. apply (foldl_preserves (map_Forall (λ _ v, ws_normal v))).
    intros m' [dt dd] Hm'. by apply Hput. }
  apply map_Forall_empty.
Qed.

(** X9: every value of the map the harvester returns is whitespace
    normal: no whitespace at either end, single spaces inside. *)
Theorem harvested_values_normal soup :
  map_Forall (λ _ v, ws_normal v) (find_label_value_pairs soup).
Proof. apply find_label_value_pairs_normal. Qed.

(** ** Field lookups and the record *)

(** X10: [get_pair] returns the value of the first of its keys that the
    map holds, whatever the later keys are bound to, and the empty text
    when the map holds none of them. *)
Theorem get_pair_first_present (pairs : gmap string string) :
  (∀ keys, Forall (λ k, pairs !! k = None) keys → get_pair pairs keys = EmptyString)
  ∧ (∀ missing k v later,
        Forall (λ k, pairs !! k = None) missing → pairs !! k = Some v →
        get_pair pairs (missing ++ k :: later) = v).
Proof.
  split.
  - intros keys H. induction H as [|k keys Hk _ IH]; [done|].
    cbn [get_pair]. by rewrite Hk.
  - intros missing k v later H Hk. induction H as [|k' missing Hk' _ IH].
    + cbn [app get_pair]. by rewrite Hk.
    + cbn [app get_pair]. by rewrite Hk'.
Qed.

Lemma get_pair_first_present_witness :
  get_pair (<["post" := "Dean"]> (<["position" := "Professor"]> ∅))
    (["designation"] ++ "position" :: ["post"]) = "Professor".
Proof.
  apply (proj2 (get_pair_first_present
                  (<["post" := "Dean"]> (<["position" := "Professor"]> ∅)))).
  - repeat constructor.
  - vm_compute. reflexivity.
Defined.

Lemma get_pair_normal (pairs : gmap string string) keys :
  map_Forall (λ _ v, ws_normal v) pairs → ws_normal (get_pair pairs keys).
Proof.
  intros Hm. induction keys as [|k keys IH]; [by left|]. cbn [get_pair].
  destruct (pairs !! k) as [v|] eqn:Hk; [|done]. by eapply (Hm k v).
Qed.

Lemma resolve_name_normal soup : ws_normal (resolve_name soup).
Proof.
  unfold resolve_name.
  assert (ws_normal (title_name soup)) as Ht.
  { unfold title_name. destruct (Dom.find _ _); [|by left].
    destruct (Dom.string_of _) as [s|]; [|by left].
    destruct (Str.is_empty s); [by left|apply normalize_text_normal]. }
  revert Ht. generalize (title_name soup).
  induction ["h1"; "h2"; "h3"] as [|tag tags IH]; intros name0 Hn; [done|].
  cbn [heading_name]. destruct (Dom.find _ _); [|by apply IH].
  destruct (_ <? _)%nat; [apply normalize_text_normal|by apply IH].
Qed.

(** X11: in every record the extractor returns, the name, designation,
    department, research interests and office are whitespace normal, and
    so is every phone number; no email address holds whitespace. *)
Theorem record_fields_normal urljoin url soup p :
  extract_profile urljoin url soup = Some p →
  ws_normal (name p) ∧ ws_normal (designation p) ∧ ws_normal (department p)
  ∧ ws_normal (research_interests p) ∧ ws_normal (office p)
  ∧ Forall ws_normal (phones p)
  ∧ (∀ e, e ∈ emails p → squeeze e = e).
Proof.
  rewrite extract_profile_unfold. destruct (_ && _); [done|]. intros [= <-].
  cbn [name designation department research_interests office phones emails].
  pose proof (find_label_value_pairs_normal soup) as Hv.
  split; [apply resolve_name_normal|].
  split; [exact (get_pair_normal _ ["designation"; "position"; "post"] Hv)|].
  split; [exact (get_pair_normal _ ["department"; "dept"; "division"] Hv)|].
  split; [exact (get_pair_normal _
            ["research interests"; "research"; "area of interest"; "research area"]
            Hv)|].
  split; [exact (get_pair_normal _ ["office"; "room"; "office no"; "office address"]
            Hv)|].
  split.
  - apply Forall_forall. intros s Hs. unfold page_phones, extract_phones in Hs.
    rewrite elem_of_dict_fromkeys in Hs.
    apply list_elem_of_fmap in Hs as (m & -> & _). apply clean_phone_normal.
  - intros e He. apply extract_emails_sound in He
      as [_ (loc & dom & tld & -> & Hl & _ & Hd & _ & Ht & _)].
    assert (∀ q s, (∀ c, q c = true → Chr.is_space c = false) →
                   Str.all_chars q s = true → squeeze s = s) as Hkeep.
    { intros q s Hq. unfold squeeze. induction s as [|c s IH]; [done|].
      cbn [Str.all_chars Urllib.remove]. intros [Hc Hs]%andb_true_iff.
      by rewrite (Hq _ Hc), IH. }
    apply (Hkeep (λ c, negb (Chr.is_space c))).
    + intros c Hc. by apply negb_true_iff.
    + assert (∀ q q' s, (∀ c, q c = true → q' c = true) →
                Str.all_chars q s = true → Str.all_chars q' s = true) as Hmono.
      { intros q q' s Hq. induction s as [|c s IH]; [done|]. cbn [Str.all_chars].
        intros [Hc Hs]%andb_true_iff. by rewrite (Hq _ Hc), IH. }
      rewrite !all_chars_app.
      rewrite (Hmono email_local (λ c, negb (Chr.is_space c)) loc),
        (Hmono email_domain (λ c, negb (Chr.is_space c)) dom),
        (Hmono Chr.is_alpha_az (λ c, negb (Chr.is_space c)) tld); [done|..];
        try done; intros c; destruct c as [[] [] [] [] [] [] [] []]; by vm_compute.
Qed.

Lemma record_fields_normal_witness :
  let p := Profile "Prof. John Doe" "Professor" "Computer Science & Engineering"
             "Algorithms, Distributed Systems" EmptyString
             {["john.doe@iiuc.ac.bd"]} ["+880 1234 567890"] None
             "https://www.iiuc.ac.bd/faculty/john-doe" in
  ws_normal (name p) ∧ ws_normal (designation p) ∧ ws_normal (department p)
  ∧ ws_normal (research_interests p) ∧ ws_normal (office p)
  ∧ Forall ws_normal (phones p)
  ∧ (∀ e, e ∈ emails p → squeeze e = e).
Proof.
  intros p.
  apply (record_fields_normal urljoin_absolute
           "https://www.iiuc.ac.bd/faculty/john-doe" sample_page p).
  vm_compute. reflexivity.
Defined.

(** ** Relevance *)

Lemma startswith_app k s : Str.startswith k (k +:+ s) = true.
Proof.
  induction k as [|c k IH]; [done|].
  change (String c k +:+ s) with (String c (k +:+ s)).
  cbn [Str.startswith]. by rewrite Ascii.eqb_refl, IH.
Qed.

Lemma startswith_spec k s : Str.startswith k s = true → ∃ t, s = k +:+ t.
Proof.
  revert s. induction k as [|c k IH]; intros s H; [by exists s|].
  destruct s as [|a s]; [done|]. cbn [Str.startswith] in H.
  apply andb_true_iff in H as [->%Ascii.eqb_eq [t ->]%IH]. by exists t.
Qed.

Lemma contains_unfold k s :
  Str.contains k s
  = if Str.startswith k s then true
    else match s with
         | EmptyString => false
         | String _ s' => Str.contains k s'
         end.
Proof. by destruct s. Qed.

Lemma contains_spec k s :
  Str.contains k s = true ↔ ∃ pre post, s = pre +:+ k +:+ post.
Proof.
  split.
  - induction s as [|c s IH]; rewrite contains_unfold;
      destruct (Str.startswith k _) eqn:E.
    + apply startswith_spec in E as [t ->]. by exists EmptyString, t.
    + done.
    + apply startswith_spec in E as [t ->]. by exists EmptyString, t.
    + intros (pre & post & ->)%IH. by exists (String c pre), post.
  - intros (pre & post & ->). induction pre as [|c pre IH].
    + change (EmptyString +:+ ?x) with x. by rewrite contains_unfold, startswith_app.
    + change (String c pre +:+ ?x) with (String c (pre +:+ x)).
      rewrite contains_unfold, IH. by destruct (Str.startswith _ _).
Qed.

Lemma lower_app s1 s2 : Str.lower (s1 +:+ s2) = Str.lower s1 +:+ Str.lower s2.
Proof.
  induction s1 as [|c s1 IH]; [done|].
  change (String c s1 +:+ s2) with (String c (s1 +:+ s2)).
  cbn [Str.lower]. by rewrite IH.
Qed.

(** X12: the URL-level relevance test looks for its keywords anywhere in
    the URL, whatever the case of the letters: a URL that holds a
    relevant URL -- or any keyword, host name included -- is relevant,
    and changing the case of letters changes nothing. *)
Theorem relevance_extends :
  (∀ pre url post,
      is_potential_relevant url = true →
      is_potential_relevant (pre +:+ url +:+ post) = true)
  ∧ (∀ k pre post,
      k ∈ keywords → is_potential_relevant (pre +:+ k +:+ post) = true)
  ∧ (∀ url, is_potential_relevant (Str.lower url) = is_potential_relevant url).
Proof.
  assert (∀ k s, k ∈ keywords → Str.contains k (Str.lower s) = true →
                 is_potential_relevant s = true) as Hin.
  { intros k s Hk Hc. unfold is_potential_relevant. apply existsb_exists.
    exists k. split; [by apply list_elem_of_In|done]. }
  split; [|split].
  - intros pre url post H. unfold is_potential_relevant in H.
    apply existsb_exists in H as (k & Hk%list_elem_of_In & Hc).
    apply (Hin k); [done|]. rewrite !lower_app.
    apply contains_spec in Hc as (a & b & ->). apply contains_spec.
    exists (Str.lower pre +:+ a), (b +:+ Str.lower post).
    by rewrite !app_assoc.
  - intros k pre post Hk. apply (Hin k); [done|]. rewrite !lower_app.
    apply contains_spec. exists (Str.lower pre), (Str.lower post).
    replace (Str.lower k) with k; [done|].
    unfold keywords in Hk. repeat (apply elem_of_cons in Hk as [->|Hk]; [done|]).
    by apply elem_of_nil in Hk.
  - intros url. unfold is_potential_relevant. by rewrite lower_idem.
Qed.

Lemma relevance_extends_witness :
  is_potential_relevant ("https://" +:+ "lawschool.edu" +:+ "/events/2024") = true.
Proof.
  apply (proj1 relevance_extends "https://" "lawschool.edu" "/events/2024").
  reflexivity.
Defined.

(** ** The crawl as a whole *)

Section CrawlMore.

Variable urlparse_netloc : string → option string.
Variable urljoin : string → string → string.
Variable net : list request → request → outcome.
Variable self : scraper.

Abbreviation step := (step urlparse_netloc urljoin net self).
Abbreviation run := (run urlparse_netloc urljoin net self).
Abbreviation crawl_loop := (crawl_loop urlparse_netloc urljoin net self).
Abbreviation process_response := (process_response urlparse_netloc urljoin self).
Abbreviation initial := (initial self).

(** What a page adds to the queue and to the results. *)
Lemma process_response_cases limit url sc ct soup st :
  ∃ links extra,
    process_response limit url sc ct soup st
    = State (seen st) (enqueue_links limit (seen st) links (q st))
            (results st ++ extra) (verify st) (log st)
    ∧ (links = [] ∨ links = get_links urlparse_netloc urljoin self soup url)
    ∧ (extra = []
       ∨ ∃ p, extra = [p] ∧ extract_profile urljoin url soup = Some p
              ∧ looks_like_profile url soup = true
              ∧ sc = 200%Z
              ∧ Str.contains "text/html" (default EmptyString ct) = true)
    ∧ (unusable (Response sc ct soup) → links = [] ∧ extra = []).
Proof.
  unfold process_response, unusable.
  destruct (Z.eqb_spec sc 200) as [->|Hsc]; cbn [negb orb].
  2: { exists [], []. rewrite (right_id_L [] (++)). destruct st. by auto. }
  destruct (Str.contains _ _) eqn:Hct; cbn [negb].
  2: { exists [], []. rewrite (right_id_L [] (++)). destruct st. by auto. }
  exists (get_links urlparse_netloc urljoin self soup url).
  destruct (looks_like_profile url soup) eqn:Hl.
  - destruct (extract_profile urljoin url soup) as [p|] eqn:Hp.
    + exists [p]. split; [done|]. split; [by right|].
      split; [right; exists p; by repeat split|]. by intros [?|?].
    + exists []. rewrite (right_id_L [] (++)). split; [done|]. split; [by right|].
      split; [by left|]. by intros [?|?].
  - exists []. rewrite (right_id_L [] (++)). split; [done|]. split; [by right|].
    split; [by left|]. by intros [?|?].
Qed.

Lemma received_more log new url soup :
  received net log url soup → received net (log ++ new) url soup.
Proof.
  intros (before & r & later & sc & ct & -> & Hr & Hn & Hsc & Hct).
  exists before, r, (later ++ new), sc, ct.
  by rewrite <-(assoc_L (++)).
Qed.

(** One iteration, spelled out: what it asks of the network, and what
    the answer adds to the queue and to the results. *)
Lemma step_cases limit st url q' :
  q st = url :: q' →
  (url ∈ seen st
   ∧ step limit st = State (seen st) q' (results st) (verify st) (log st))
  ∨ ((url ∉ seen st)
     ∧ ∃ links extra v' new,
         step limit st
         = State ({[url]} ∪ seen st)
                 (enqueue_links limit ({[url]} ∪ seen st) links q')
                 (results st ++ extra) v'
                 (log st ++ new)
         ∧ ((new = [] ∧ v' = verify st ∧ links = [] ∧ extra = []
             ∧ net (log st) (Fetch url (verify st)) = SleepError)
            ∨ (new = [Fetch url (verify st)] ∧ v' = verify st
               ∧ net (log st) (Fetch url (verify st)) ≠ SSLError
               ∧ net (log st) (Fetch url (verify st)) ≠ SleepError)
            ∨ (new = [Fetch url (verify st); Retry url VerifyOff]
               ∧ v' = VerifyOff
               ∧ net (log st) (Fetch url (verify st)) = SSLError))
         ∧ (links = [] ∨ ∃ soup, links = get_links urlparse_netloc urljoin self soup url)
         ∧ (extra = []
            ∨ ∃ soup p, extra = [p] ∧ extract_profile urljoin url soup = Some p
                        ∧ looks_like_profile url soup = true
                        ∧ received net (log st ++ new) url soup)
         ∧ ((∀ h r, unusable (net h r)) → links = [] ∧ extra = [])).
Proof.
  intros Hq. destruct (decide (url ∈ seen st)) as [Hin|Hin]; [left|right].
  { split; [done|]. by apply (step_skip _ _ _ _ _ _ url q'). }
  split; [done|]. unfold step. rewrite Hq, decide_False by done.
  assert (∀ sc ct soup st1 before r,
    log st1 = before ++ [r] → request_url r = url →
    net before r = Response sc ct soup →
    ∃ links extra,
      process_response limit url sc ct soup st1
      = State (seen st1) (enqueue_links limit (seen st1) links (q st1))
              (results st1 ++ extra) (verify st1) (log st1)
      ∧ (links = [] ∨ ∃ soup, links = get_links urlparse_netloc urljoin self soup url)
      ∧ (extra = []
         ∨ ∃ soup p, extra = [p] ∧ extract_profile urljoin url soup = Some p
                     ∧ looks_like_profile url soup = true
                     ∧ received net (log st1) url soup)
      ∧ ((∀ h r, unusable (net h r)) → links = [] ∧ extra = [])) as Hpage.
  { intros sc ct soup st1 before r Hlog Hurl Hnet.
    destruct (process_response_cases limit url sc ct soup st1)
      as (links & extra & -> & Hl & He & Hu).
    exists links, extra. split; [done|]. split; [|split].
    - destruct Hl; [by left|right; by eauto].
    - destruct He as [?|(p & ? & ? & ? & ? & ?)]; [by left|right].
      exists soup, p. split; [done|]. split; [done|]. split; [done|].
      exists before, r, [], sc, ct. by rewrite Hlog.
    - intros Hall. apply Hu. rewrite <-Hnet. apply Hall. }
  destruct (net (log st) (Fetch url (verify st))) as [| |sc ct soup|] eqn:Hn.
  - cbn [seen q results verify log].
    destruct (net (log st ++ [Fetch url (verify st)]) (Retry url VerifyOff))
      as [| |sc ct soup|] eqn:Hr.
    1, 2, 4: exists [], [], VerifyOff, [Fetch url (verify st); Retry url VerifyOff];
      rewrite (right_id_L [] (++)), <-(assoc_L (++));
      (split; [done|]); (split; [right; by right|]); by auto.
    destruct (Hpage sc ct soup
                (State ({[url]} ∪ seen st) q' (results st) VerifyOff
                   ((log st ++ [Fetch url (verify st)]) ++ [Retry url VerifyOff]))
                (log st ++ [Fetch url (verify st)]) (Retry url VerifyOff)
                eq_refl eq_refl Hr) as (links & extra & -> & Hl & He & Hu).
    exists links, extra, VerifyOff, [Fetch url (verify st); Retry url VerifyOff].
    cbn [seen q results verify log] in *. rewrite <-(assoc_L (++)) in *.
    split; [done|]. split; [right; by right|]. by auto.
  - exists [], [], (verify st), [Fetch url (verify st)].
    rewrite (right_id_L [] (++)).
    split; [done|]. split; [right; left; by auto|]. by auto.
  - destruct (Hpage sc ct soup
                (State ({[url]} ∪ seen st) q' (results st) (verify st)
                   (log st ++ [Fetch url (verify st)]))
                (log st) (Fetch url (verify st)) eq_refl eq_refl Hn)
      as (links & extra & -> & Hl & He & Hu).
    exists links, extra, (verify st), [Fetch url (verify st)].
    cbn [seen q results verify log] in *.
    split; [done|]. split; [right; left; by auto|]. by auto.
  - exists [], [], (verify st), []. rewrite !(right_id_L [] (++)).
    split; [done|]. split; [left; by auto|]. by auto.
Qed.

Lemma crawl_loop_stopped limit fuel st :
  running limit st = false → crawl_loop limit fuel st = Some st.
Proof. intros H. destruct fuel; simpl; by rewrite H. Qed.

Lemma run_invariant (I : state → Prop) limit :
  (∀ st, running limit st = true → I st → I (step limit st)) →
  ∀ n st, I st → I (run limit n st).
Proof.
  intros Hstep n. induction n as [|n IH]; intros st H; [done|].
  rewrite run_S. destruct (running limit st) eqn:E; [|done].
  by apply IH, Hstep.
Qed.

Lemma get_links_resolved soup base link :
  link ∈ get_links urlparse_netloc urljoin self soup base →
  resolved_in_domain urlparse_netloc self link.
Proof.
  unfold get_links. intros (a & _ & Ha)%list_elem_of_omap.
  unfold link_of in Ha. destruct (Dom.attr "href" a); [|done].
  destruct (_ || _); [done|].
  destruct (is_same_domain _ _ _) eqn:E; [|done].
  injection Ha as <-. by eexists.
Qed.

(** X13: the crawl stays on the domain: every URL it queues or asks the
    network for is the start URL or the fragment-free form of a URL that
    passed the domain test. *)
Theorem crawl_stays_in_domain limit v n :
  let st := run limit n (initial v) in
  (∀ u, u ∈ q st →
        u = start_url self ∨ resolved_in_domain urlparse_netloc self u)
  ∧ (∀ r, r ∈ log st →
          request_url r = start_url self
          ∨ resolved_in_domain urlparse_netloc self (request_url r)).
Proof.
  set (P u := u = start_url self ∨ resolved_in_domain urlparse_netloc self u).
  apply (run_invariant
           (λ st, (∀ u, u ∈ q st → P u) ∧ (∀ r, r ∈ log st → P (request_url r)))).
  - intros st Hrun [Hq Hlog].
    apply running_true in Hrun as ((url & q' & E) & _).
    assert (P url) as Hurl by (apply Hq; rewrite E; by apply elem_of_cons; left).
    assert (∀ u, u ∈ q' → P u) as Hq'
      by (intros u Hu; apply Hq; rewrite E; by apply elem_of_cons; right).
    destruct (step_cases limit st url q' E)
      as [[_ ->]|(_ & links & extra & v' & more & -> & Hmore & Hlinks & _)];
      cbn [q log]; [done|]. split.
    + intros u [Hu|Hu]%enqueue_links_elem; [by apply Hq'|].
      destruct Hlinks as [->|[soup ->]]; [by apply elem_of_nil in Hu|].
      right. by eapply get_links_resolved.
    + intros r [Hr|Hr]%elem_of_app; [by apply Hlog|].
      destruct Hmore as [(-> & _)|[(-> & _)|(-> & _)]].
      * by apply elem_of_nil in Hr.
      * by apply list_elem_of_singleton in Hr as ->.
      * by apply elem_of_cons in Hr as [->| ->%list_elem_of_singleton].
  - change (q (initial v)) with [start_url self].
    change (log (initial v)) with ([] : list request). split.
    + intros u ->%list_elem_of_singleton. by left.
    + intros r Hr. by apply elem_of_nil in Hr.
Qed.

(** X14: a crawl never holds more records than it has visited pages, nor
    more than 10000. *)
Theorem results_bounded limit v n :
  let st := run limit n (initial v) in
  (length (results st) ≤ size (seen st))%nat
  ∧ (Z.of_nat (length (results st)) ≤ 10000)%Z.
Proof.
  apply (run_invariant
           (λ st, (length (results st) ≤ size (seen st))%nat
                  ∧ (Z.of_nat (length (results st)) ≤ 10000)%Z)).
  - intros st Hrun [Hs Hr].
    apply running_true in Hrun as ((url & q' & E) & _ & Hlt).
    destruct (step_cases limit st url q' E)
      as [[_ ->]|(Hin & links & extra & v' & more & -> & _ & _ & Hextra & _)];
      cbn [results seen]; [done|].
    rewrite (size_seen_add _ _ Hin), length_app.
    assert (length extra ≤ 1)%nat
      by (destruct Hextra as [->|(? & ? & -> & _)]; simpl; lia).
    lia.
  - change (results (initial v)) with ([] : list profile). cbn [length]. lia.
Qed.

(** X15: the records of a crawl come from pairwise different pages:
    no two of them have the same [profile_url], and each [profile_url] is
    a URL the crawl has visited and asked for. *)
Theorem results_from_distinct_pages limit v n :
  let st := run limit n (initial v) in
  NoDup (profile_url <$> results st)
  ∧ (∀ p, p ∈ results st →
          profile_url p ∈ seen st ∧ profile_url p ∈ fetched (log st)).
Proof.
  apply (run_invariant
           (λ st, NoDup (profile_url <$> results st)
                  ∧ (∀ p, p ∈ results st →
                          profile_url p ∈ seen st
                          ∧ profile_url p ∈ fetched (log st)))).
  - intros st Hrun [Hnd Hin].
    apply running_true in Hrun as ((url & q' & E) & _).
    destruct (step_cases limit st url q' E)
      as [[_ ->]|(Hnew & links & extra & v' & more & -> & Hmore & _ & Hextra & _)];
      cbn [results seen log]; [done|].
    assert (∀ p, p ∈ results st →
              profile_url p ∈ {[url]} ∪ seen st
              ∧ profile_url p ∈ fetched (log st ++ more))
      as Hold.
    { intros p [Hs Hf]%Hin. split; [apply elem_of_union; by right|].
      unfold fetched. rewrite omap_app. apply elem_of_app. by left. }
    destruct Hextra as [->|(soup & p & -> & Hp & _)].
    { by rewrite (right_id_L [] (++)). }
    assert (∃ more', more = Fetch url (verify st) :: more') as [more' ->].
    { destruct Hmore as [(_ & _ & _ & ? & _)|[(-> & _)|(-> & _)]];
        [done|by eexists..]. }
    apply extract_profile_some in Hp as (_ & _ & _ & _ & _ & Hurl).
    split.
    + rewrite fmap_app. apply NoDup_app. split; [done|].
      split; [|apply NoDup_singleton].
      intros u (p' & -> & Hp')%list_elem_of_fmap Hu.
      apply list_elem_of_singleton in Hu. cbn in Hu. rewrite Hurl in Hu.
      apply Hnew. rewrite <-Hu. by apply Hin.
    + intros p' [Hp'| ->%list_elem_of_singleton]%elem_of_app; [by apply Hold|].
      rewrite Hurl. split; [apply elem_of_union; left; by apply elem_of_singleton|].
      unfold fetched. rewrite omap_app. apply elem_of_app. right.
      cbn [omap]. apply list_elem_of_here.
  - change (results (initial v)) with ([] : list profile).
    split; [constructor|].
    intros p Hp. by apply elem_of_nil in Hp.
Qed.

(** X16: the limit bounds the traffic: the loop's first call is made
    at most once for every visited URL -- exactly once when the sleep
    before it never raises --, hence no more often than the limit
    allows, and with the retries the network is asked at most twice as
    often as there are visited URLs. *)
Theorem requests_bounded limit v n :
  let st := run limit n (initial v) in
  (length (fetched (log st)) ≤ size (seen st))%nat
  ∧ (length (log st) ≤ 2 * size (seen st))%nat
  ∧ (Z.of_nat (length (fetched (log st))) ≤ Z.max 0 limit)%Z
  ∧ ((∀ h r, net h r ≠ SleepError) →
     length (fetched (log st)) = size (seen st)).
Proof.
  cbn zeta.
  assert ((length (fetched (log (run limit n (initial v))))
           ≤ size (seen (run limit n (initial v))))%nat
          ∧ (length (log (run limit n (initial v)))
             ≤ 2 * size (seen (run limit n (initial v))))%nat) as [Hf Hl].
  { apply (run_invariant
             (λ st, (length (fetched (log st)) ≤ size (seen st))%nat
                    ∧ (length (log st) ≤ 2 * size (seen st))%nat)).
    - intros st Hrun [Hf Hl].
      apply running_true in Hrun as ((url & q' & E) & _).
      destruct (step_cases limit st url q' E)
        as [[_ ->]|(Hnew & links & extra & v' & more & -> & Hmore & _)];
        cbn [seen log]; [done|].
      rewrite (size_seen_add _ _ Hnew). unfold fetched in *.
      rewrite omap_app, !length_app.
      destruct Hmore as [(-> & _)|[(-> & _)|(-> & _)]]; simpl; lia.
    - change (seen (initial v)) with (∅ : gset string).
      change (log (initial v)) with ([] : list request).
      by rewrite size_empty. }
  split; [done|]. split; [done|]. split.
  - etrans; [|apply (run_seen_bound urlparse_netloc urljoin net self limit n (initial v))].
    + lia.
    + change (seen (initial v)) with (∅ : gset string). rewrite size_empty. lia.
  - intros Hawake.
    apply (run_invariant (λ st, length (fetched (log st)) = size (seen st))).
    + intros st Hrun Hst.
      apply running_true in Hrun as ((url & q' & E) & _).
      destruct (step_cases limit st url q' E)
        as [[_ ->]|(Hnew & links & extra & v' & more & -> & Hmore & _)];
        cbn [seen log]; [done|].
      rewrite (size_seen_add _ _ Hnew). unfold fetched in *.
      rewrite omap_app, !length_app.
      destruct Hmore as [(_ & _ & _ & _ & Hs)|[(-> & _)|(-> & _)]];
        [by destruct (Hawake _ _ Hs)|simpl; lia..].
    + change (seen (initial v)) with (∅ : gset string).
      change (log (initial v)) with ([] : list request).
      by rewrite size_empty.
Qed.

(** X17: with a limit of no pages -- [max_pages] zero or negative and no
    other limit given, or a negative limit -- the crawl asks for nothing
    and returns the empty list. *)
Theorem crawl_without_budget limit v :
  (effective_limit self limit ≤ 0)%Z →
  crawl urlparse_netloc urljoin net self limit v = Some []
  ∧ ∀ n, run (effective_limit self limit) n (initial v) = initial v.
Proof.
  intros Hle.
  assert (running (effective_limit self limit) (initial v) = false) as Hstop.
  { unfold running. change (seen (initial v)) with (∅ : gset string).
    rewrite size_empty.
    destruct (Z.ltb_spec (Z.of_nat 0) (effective_limit self limit)); [lia|].
    by rewrite andb_false_r. }
  split.
  - unfold crawl. rewrite crawl_loop_stopped; done.
  - intros n. by apply run_stopped.
Qed.

(** X18: on a network that never raises [SSLError] the session's
    verification mode is never changed and no request is made twice. *)
Theorem verification_kept_without_tls_errors limit n st :
  (∀ h r, net h r ≠ SSLError) →
  verify (run limit n st) = verify st
  ∧ retried (log (run limit n st)) = retried (log st).
Proof.
  intros Hnet.
  apply (run_invariant
           (λ s, verify s = verify st ∧ retried (log s) = retried (log st)));
    [|done].
  intros s Hrun [Hv Hr].
  apply running_true in Hrun as ((url & q' & E) & _).
  destruct (step_cases limit s url q' E)
    as [[_ ->]|(_ & links & extra & v' & more & -> & Hmore & _)];
    cbn [verify log]; [done|].
  destruct Hmore as [(-> & -> & _)|[(-> & -> & _)|(_ & _ & Hssl)]];
    [| |by destruct (Hnet _ _ Hssl)].
  { by rewrite (right_id_L [] (++)). }
  split; [done|]. unfold retried in *. rewrite omap_app. simpl.
  by rewrite <-Hr, (right_id_L [] (++)).
Qed.

(** X19: on a network that gives no usable page -- every call raises, or
    returns another status than 200, or another content type than
    [text/html] -- only the start URL is ever asked for, nothing else is
    queued, and the crawl collects no record. *)
Theorem crawl_of_unusable_site limit v n :
  (∀ h r, unusable (net h r)) →
  let st := run limit n (initial v) in
  results st = []
  ∧ (∀ r, r ∈ log st → request_url r = start_url self)
  ∧ (∀ u, u ∈ q st → u = start_url self)
  ∧ seen st ⊆ {[start_url self]}.
Proof.
  intros Hnet.
  apply (run_invariant
           (λ st, results st = []
                  ∧ (∀ r, r ∈ log st → request_url r = start_url self)
                  ∧ (∀ u, u ∈ q st → u = start_url self)
                  ∧ seen st ⊆ {[start_url self]})).
  - intros st Hrun (Hres & Hlog & Hq & Hseen).
    apply running_true in Hrun as ((url & q' & E) & _).
    assert (url = start_url self) as Hurl
      by (apply Hq; rewrite E; by apply elem_of_cons; left).
    assert (∀ u, u ∈ q' → u = start_url self) as Hq'
      by (intros u Hu; apply Hq; rewrite E; by apply elem_of_cons; right).
    destruct (step_cases limit st url q' E)
      as [[_ ->]|(_ & links & extra & v' & more & -> & Hmore & _ & _ & Hnone)];
      cbn [results log q seen]; [done|].
    destruct (Hnone Hnet) as [-> ->]. cbn [enqueue_links].
    rewrite (right_id_L [] (++)). split; [done|]. split; [|split; [done|]].
    + intros r [Hr|Hr]%elem_of_app; [by apply Hlog|].
      destruct Hmore as [(-> & _)|[(-> & _)|(-> & _)]].
      * by apply elem_of_nil in Hr.
      * by apply list_elem_of_singleton in Hr as ->.
      * by apply elem_of_cons in Hr as [->| ->%list_elem_of_singleton].
    + rewrite Hurl. apply union_least; [done|exact Hseen].
  - change (results (initial v)) with ([] : list profile).
    change (log (initial v)) with ([] : list request).
    change (q (initial v)) with [start_url self].
    change (seen (initial v)) with (∅ : gset string).
    split; [done|]. split.
    { intros r Hr. by apply elem_of_nil in Hr. }
    split; [by intros u ->%list_elem_of_singleton|]. apply empty_subseteq.
Qed.

(** X20: started with [--insecure] and without (or with an empty)
    [--ca-bundle], the crawl makes every request with verification off;
    a non-empty [--ca-bundle] prevails over [--insecure]: the crawl then
    starts with verification against that bundle. *)
Theorem main_verification_flags certifi_where limit n :
  (∀ ca_bundle,
      ca_bundle = None ∨ ca_bundle = Some EmptyString →
      Forall (λ r, request_mode r = VerifyOff)
        (log (run limit n (initial (main_verify certifi_where true ca_bundle)))))
  ∧ (∀ insecure c path,
      verify (initial (main_verify certifi_where insecure (Some (String c path))))
      = VerifyBundle (String c path)).
Proof.
  split; [|done]. intros ca_bundle Hca.
  assert (main_verify certifi_where true ca_bundle = VerifyOff) as ->
    by by destruct Hca as [-> | ->].
  destruct (run_latch urlparse_netloc urljoin net self limit n (initial VerifyOff))
    as (_ & more & -> & Hmore); [done|]. done.
Qed.

(** X25: every record of a crawl was extracted from a page that the
    crawl received for the record's [profile_url] -- a call for that URL
    is in the log, and the network answered it with status 200, an HTML
    content type and that page -- and that passed the page-level test
    under that URL. *)
Theorem results_passed_page_test limit v n :
  let st := run limit n (initial v) in
  Forall (λ p, ∃ soup,
            received net (log st) (profile_url p) soup
            ∧ extract_profile urljoin (profile_url p) soup = Some p
            ∧ looks_like_profile (profile_url p) soup = true)
         (results st).
Proof.
  apply (run_invariant
           (λ st, Forall (λ p, ∃ soup,
                            received net (log st) (profile_url p) soup
                            ∧ extract_profile urljoin (profile_url p) soup = Some p
                            ∧ looks_like_profile (profile_url p) soup = true)
                         (results st))).
  - intros st Hrun Hres.
    apply running_true in Hrun as ((url & q' & E) & _).
    destruct (step_cases limit st url q' E)
      as [[_ ->]|(_ & links & extra & v' & more & -> & _ & _ & Hextra & _)];
      cbn [results log]; [done|].
    apply Forall_app. split.
    { eapply Forall_impl; [exact Hres|]. intros p (soup & Hrec & Hp & Hl).
      exists soup. split; [by apply received_more|done]. }
    destruct Hextra as [->|(soup & p & -> & Hp & Hl & Hrec)]; [constructor|].
    constructor; [|constructor]. exists soup.
    pose proof (extract_profile_some _ _ _ _ Hp) as (_ & _ & _ & _ & _ & ->).
    done.
  - constructor.
Qed.

End CrawlMore.

Lemma crawl_without_budget_witness :
  crawl Urllib.netloc urljoin_absolute site_net site_scraper (Some (-5)%Z) VerifyDefault
  = Some []
  ∧ ∀ n, run Urllib.netloc urljoin_absolute site_net site_scraper
           (effective_limit site_scraper (Some (-5)%Z)) n
           (initial site_scraper VerifyDefault)
         = initial site_scraper VerifyDefault.
Proof.
  apply (crawl_without_budget Urllib.netloc urljoin_absolute site_net site_scraper
           (Some (-5)%Z) VerifyDefault).
  vm_compute. discriminate.
Defined.

Lemma verification_kept_without_tls_errors_witness :
  let st := initial site_scraper (VerifyBundle "/etc/ssl/cert.pem") in
  verify (run Urllib.netloc urljoin_absolute site_net site_scraper 1000 3 st)
  = verify st
  ∧ retried (log (run Urllib.netloc urljoin_absolute site_net site_scraper 1000 3 st))
    = retried (log st).
Proof.
  apply (verification_kept_without_tls_errors Urllib.netloc urljoin_absolute
           site_net site_scraper 1000%Z 3).
  intros h r. unfold site_net, html. destruct (String.eqb _ _); discriminate.
Defined.

Lemma requests_bounded_witness :
  let st := run Urllib.netloc urljoin_absolute site_net site_scraper 1000 3
              (initial site_scraper VerifyDefault) in
  length (fetched (log st)) = size (seen st).
Proof.
  apply (proj2 (proj2 (proj2 (requests_bounded Urllib.netloc urljoin_absolute
                                site_net site_scraper 1000%Z VerifyDefault 3)))).
  intros h r. unfold site_net, html. destruct (String.eqb _ _); discriminate.
Defined.

Lemma crawl_of_unusable_site_witness :
  let st := run Urllib.netloc urljoin_absolute down_net site_scraper 1000 5
              (initial site_scraper VerifyDefault) in
  results st = []
  ∧ (∀ r, r ∈ log st → request_url r = start_url site_scraper)
  ∧ (∀ u, u ∈ q st → u = start_url site_scraper)
  ∧ seen st ⊆ {[start_url site_scraper]}.
Proof.
  apply (crawl_of_unusable_site Urllib.netloc urljoin_absolute down_net
           site_scraper 1000%Z VerifyDefault 5).
  intros h r. left. discriminate.
Defined.

Lemma main_verification_flags_witness :
  Forall (λ r, request_mode r = VerifyOff)
    (log (run Urllib.netloc urljoin_absolute site_net site_scraper 1000 3
            (initial site_scraper
               (main_verify (Some "/usr/lib/certifi/cacert.pem") true None)))).
Proof.
  apply (proj1 (main_verification_flags Urllib.netloc urljoin_absolute site_net
                  site_scraper (Some "/usr/lib/certifi/cacert.pem") 1000%Z 3)).
  by left.
Defined.

(** ** The scraper's own domain *)

(** X21: a scraper's start URL passes its own domain test, and the test
    never accepts a URL whose network location is shorter than the
    domain: links to a parent domain are not followed. *)
Theorem start_url_in_domain urlparse_netloc url pages self :
  new_scraper urlparse_netloc url pages = Some self →
  is_same_domain urlparse_netloc self (start_url self) = true
  ∧ (∀ u netloc,
        is_same_domain urlparse_netloc self u = true →
        urlparse_netloc u = Some netloc →
        (String.length (domain self) ≤ String.length netloc)%nat).
Proof.
  unfold new_scraper. destruct (urlparse_netloc url) as [n|] eqn:Hn; [|done].
  intros [= <-]. cbn [start_url domain]. split.
  - unfold is_same_domain. cbn [domain]. by rewrite Hn, String.eqb_refl.
  - intros u netloc Hu Hp. apply is_same_domain_spec in Hu as (n' & Hn' & Hd).
    cbn [domain] in Hd. rewrite Hp in Hn'. injection Hn' as <-.
    destruct Hd as [->|[sub ->]]; [done|]. rewrite !app_length. lia.
Qed.

Lemma start_url_in_domain_witness :
  is_same_domain Urllib.netloc (Scraper "https://www.iiuc.ac.bd/" "www.iiuc.ac.bd" 1000)
    "https://www.iiuc.ac.bd/" = true
  ∧ (∀ u netloc,
        is_same_domain Urllib.netloc
          (Scraper "https://www.iiuc.ac.bd/" "www.iiuc.ac.bd" 1000) u = true →
        Urllib.netloc u = Some netloc →
        (String.length "www.iiuc.ac.bd" ≤ String.length netloc)%nat).
Proof.
  apply (start_url_in_domain Urllib.netloc "https://www.iiuc.ac.bd/" 1000%Z
           (Scraper "https://www.iiuc.ac.bd/" "www.iiuc.ac.bd" 1000)).
  vm_compute. reflexivity.
Defined.

(** ** De-duplication and the CSV cells *)

(** X22: [list(dict.fromkeys(l))] neither drops nor moves anything in a
    list without duplicates, so de-duplicating twice is de-duplicating
    once. *)
Theorem dict_fromkeys_stable :
  (∀ l, NoDup l → dict_fromkeys l = l)
  ∧ (∀ l, dict_fromkeys (dict_fromkeys l) = dict_fromkeys l).
Proof.
  assert (∀ l, NoDup l → dict_fromkeys l = l) as Hfix.
  { intros l. induction l as [|z l IH] using rev_ind; intros Hnd; [done|].
    apply NoDup_app in Hnd as (Hl & Hz & _).
    rewrite dict_fromkeys_snoc, (IH Hl). rewrite decide_False; [done|].
    intros Hin. apply (Hz z Hin), list_elem_of_here. }
  split; [done|]. intros l. apply Hfix, NoDup_dict_fromkeys.
Qed.

Lemma join_cons sep x l :
  Str.join sep (x :: l)
  = x +:+ match l with [] => EmptyString | _ => sep +:+ Str.join sep l end.
Proof. destruct l; [by rewrite app_nil_r|done]. Qed.

Lemma before_semicolon_free x t :
  Str.all_chars not_semicolon x = true →
  (t = EmptyString ∨ ∃ t', t = String ";" t') →
  Str.before ";" (x +:+ t) = x.
Proof.
  intros Hx Ht. induction x as [|c x IH].
  - change (EmptyString +:+ t) with t. by destruct Ht as [->|[t' ->]].
  - change (String c x +:+ t) with (String c (x +:+ t)). cbn [Str.before].
    cbn [Str.all_chars] in Hx. apply andb_true_iff in Hx as [Hc Hx].
    unfold not_semicolon in Hc. apply negb_true_iff in Hc. by rewrite Hc, IH.
Qed.

Lemma join_injective l1 : ∀ l2,
  Forall (λ x, Str.all_chars not_semicolon x = true ∧ x ≠ EmptyString) l1 →
  Forall (λ x, Str.all_chars not_semicolon x = true ∧ x ≠ EmptyString) l2 →
  Str.join "; " l1 = Str.join "; " l2 → l1 = l2.
Proof.
  induction l1 as [|x l1 IH]; intros l2 H1 H2 E.
  - destruct l2 as [|y l2]; [done|]. apply Forall_cons in H2 as [[_ Hy] _].
    rewrite join_cons in E. symmetry in E. by apply app_eq_empty in E as [? _].
  - apply Forall_cons in H1 as [[Hx Hxn] H1].
    destruct l2 as [|y l2].
    { rewrite join_cons in E. by apply app_eq_empty in E as [? _]. }
    apply Forall_cons in H2 as [[Hy Hyn] H2]. rewrite !join_cons in E.
    assert (x = y) as <-.
    { rewrite <-(before_semicolon_free x
                   match l1 with [] => EmptyString | _ => "; " +:+ Str.join "; " l1 end),
              <-(before_semicolon_free y
                   match l2 with [] => EmptyString | _ => "; " +:+ Str.join "; " l2 end);
        [by rewrite E|done|..|done|].
      - destruct l2; [by left|right; by eexists].
      - destruct l1; [by left|right; by eexists]. }
    f_equal. apply (inj (String.app x)) in E.
    destruct l1 as [|x1 l1], l2 as [|y1 l2]; [done|done|done|].
    apply IH; [done|done|]. by injection E.
Qed.

Lemma phone_semicolon_free text s :
  s ∈ extract_phones text →
  Str.all_chars not_semicolon s = true ∧ s ≠ EmptyString.
Proof.
  intros Hs. apply extract_phones_sound in Hs
    as (m & _ & (sign & d1 & mid & d2 & -> & Hsign & Hd1 & Hd2 & Hmid & _) & _ & ->).
  set (m := sign +:+ String d1 (mid +:+ String d2 EmptyString)).
  assert (∀ q q' s, (∀ c, q c = true → q' c = true) →
            Str.all_chars q s = true → Str.all_chars q' s = true) as Hmono.
  { intros q q' s Hq. induction s as [|c s IH]; [done|]. cbn [Str.all_chars].
    intros [Hc Hs]%andb_true_iff. by rewrite (Hq _ Hc), IH. }
  assert (Str.all_chars not_semicolon m = true) as Hm.
  { unfold m. rewrite all_chars_app. cbn [Str.all_chars]. rewrite all_chars_app.
    cbn [Str.all_chars].
    rewrite (Hmono phone_sep not_semicolon mid); [|
      intros c; destruct c as [[] [] [] [] [] [] [] []]; by vm_compute|done].
    assert (∀ d, Chr.is_digit d = true → not_semicolon d = true) as Hdig
      by (intros c; destruct c as [[] [] [] [] [] [] [] []]; by vm_compute).
    rewrite (Hdig _ Hd1), (Hdig _ Hd2).
    by destruct Hsign as [-> | ->]. }
  split.
  - unfold normalize_text. destruct m as [|c m'] eqn:Em; [done|].
    cbn [Str.is_empty]. unfold Re.sub, Str.strip.
    rewrite (proj1 (sub_go_collapse (String c m'))).
    apply all_chars_rstrip, all_chars_lstrip.
    clear -Hm. revert Hm. generalize (String c m') false.
    intros s. induction s as [|a s IH]; intros b Hs; [done|].
    cbn [collapse Str.all_chars] in *. apply andb_true_iff in Hs as [Ha Hs].
    destruct (Chr.is_space a); [destruct b|]; cbn [Str.all_chars];
      rewrite ?Ha, ?(IH _ Hs); done.
  - intros E. pose proof (normalize_text_squeeze m) as Hk.
    rewrite E in Hk. symmetry in Hk. apply squeeze_empty in Hk.
    unfold m in Hk. rewrite all_chars_app in Hk. cbn [Str.all_chars] in Hk.
    assert (Chr.is_space d1 = false) as Hns
      by (revert Hd1; destruct d1 as [[] [] [] [] [] [] [] []]; by vm_compute).
    rewrite Hns in Hk. cbn in Hk. by rewrite andb_false_r in Hk.
Qed.

(** X23: the CSV cell of a phone list tells the list: two lists that
    [extract_phones] returned and that are written as the same cell are
    the same list, item by item. *)
Theorem phones_cell_tells_list (r1 r2 : gmap string value) text1 text2 :
  r1 !! "phones" = Some (VList (extract_phones text1)) →
  r2 !! "phones" = Some (VList (extract_phones text2)) →
  csv_row r1 !! 6%nat = csv_row r2 !! 6%nat →
  extract_phones text1 = extract_phones text2.
Proof.
  intros H1 H2 E. unfold csv_row, fieldnames in E. cbn in E.
  rewrite H1, H2 in E. cbn [cell] in E. injection E as E.
  apply join_injective; [| |done]; apply Forall_forall; intros s Hs;
    by eapply phone_semicolon_free.
Qed.

Lemma phones_cell_tells_list_witness :
  extract_phones "Tel 031-610085" = extract_phones "call 031-610085 now".
Proof.
  apply (phones_cell_tells_list
           {["phones" := VList (extract_phones "Tel 031-610085")]}
           {["phones" := VList (extract_phones "call 031-610085 now")]}).
  - vm_compute. reflexivity.
  - vm_compute. reflexivity.
  - vm_compute. reflexivity.
Defined.

(** ** Pages without text *)

Lemma node_induction (P : node → Prop) :
  (∀ s, P (Text s)) →
  (∀ s, P (Comment s)) →
  (∀ t a cs, Forall P cs → P (Elem t a cs)) →
  ∀ n, P n.
Proof.
  intros HT HC HE. fix IH 1. intros [s|s|t a cs]; [apply HT|apply HC|].
  apply HE.
  induction cs as [|c cs IHcs]; constructor; [apply IH|exact IHcs].
Qed.

Lemma strings_of_descendant n : ∀ d s,
  d ∈ Dom.descendants n → s ∈ Dom.strings d → s ∈ Dom.strings n.
Proof.
  induction n as [s0|s0|t a cs IH] using node_induction; intros d s Hd Hs.
  1, 2: by apply elem_of_nil in Hd.
  cbn [Dom.descendants Dom.strings] in *.
  induction IH as [|c cs Hc _ IHcs]; [by apply elem_of_nil in Hd|].
  cbn [flat_map] in *. apply elem_of_app.
  apply elem_of_app in Hd as [Hd|Hd]; [left|right; by apply IHcs].
  apply elem_of_cons in Hd as [->|Hd]; [done|by eapply Hc].
Qed.

Lemma leaves_of_descendant n : ∀ d s,
  d ∈ Dom.descendants n → s ∈ Dom.leaves d → s ∈ Dom.leaves n.
Proof.
  induction n as [s0|s0|t a cs IH] using node_induction; intros d s Hd Hs.
  1, 2: by apply elem_of_nil in Hd.
  cbn [Dom.descendants Dom.leaves] in *.
  induction IH as [|c cs Hc _ IHcs]; [by apply elem_of_nil in Hd|].
  cbn [flat_map] in *. apply elem_of_app.
  apply elem_of_app in Hd as [Hd|Hd]; [left|right; by apply IHcs].
  apply elem_of_cons in Hd as [->|Hd]; [done|by eapply Hc].
Qed.

(** The leaves that [get_text] returns are among all the leaves. *)
Lemma strings_among_leaves n s : s ∈ Dom.strings n → s ∈ Dom.leaves n.
Proof.
  induction n as [s0|s0|t a cs IH] using node_induction; intros Hs.
  - done.
  - by apply elem_of_nil in Hs.
  - cbn [Dom.strings Dom.leaves] in *.
    induction IH as [|c cs Hc _ IHcs]; [done|].
    cbn [flat_map] in *. apply elem_of_app.
    apply elem_of_app in Hs as [Hs|Hs]; [left; by apply Hc|right; by apply IHcs].
Qed.

Lemma leafless_strings n : Dom.leaves n = [] → Dom.strings n = [].
Proof.
  intros Hn. apply elem_of_nil_inv. intros s Hs%strings_among_leaves.
  rewrite Hn in Hs. by apply elem_of_nil in Hs.
Qed.

Lemma leafless_found names n d :
  Dom.leaves n = [] → d ∈ Dom.find_all names n → Dom.leaves d = [].
Proof.
  intros Hn Hd. apply elem_of_nil_inv. intros s Hs.
  eapply elem_of_nil. rewrite <-Hn. eapply leaves_of_descendant; [|exact Hs].
  unfold Dom.find_all in Hd. apply list_elem_of_In, filter_In in Hd as [Hd _].
  by apply list_elem_of_In.
Qed.

Lemma textless_descendant n d :
  Dom.strings n = [] → d ∈ Dom.descendants n → Dom.strings d = [].
Proof.
  intros Hn Hd. apply elem_of_nil_inv. intros s Hs.
  eapply elem_of_nil. rewrite <-Hn. by eapply strings_of_descendant.
Qed.

Lemma textless_found names n d :
  Dom.strings n = [] → d ∈ Dom.find_all names n → Dom.strings d = [].
Proof.
  intros Hn Hd. apply (textless_descendant n); [done|].
  unfold Dom.find_all in Hd. apply list_elem_of_In, filter_In in Hd as [Hd _].
  by apply list_elem_of_In.
Qed.

(** An element that wraps no leaf, text or comment, has no [.string]. *)
Lemma leafless_string_of n : Dom.leaves n = [] → Dom.string_of n = None.
Proof.
  induction n as [s|s|t a cs IH] using node_induction; [done|done|].
  intros H. destruct cs as [|c [|c' cs]]; [done| |done].
  cbn [Dom.string_of]. apply Forall_cons in IH as [IH _]. apply IH.
  cbn [Dom.leaves flat_map] in H. by rewrite (right_id_L [] (++)) in H.
Qed.

Lemma textless_label d : Dom.strings d = [] → label_of d = EmptyString.
Proof. intros H. unfold label_of, Dom.get_text. by rewrite H. Qed.

Lemma textless_pairs soup (pairs : gmap string string) :
  Dom.strings soup = [] →
  text_pass soup (table_pass soup (dl_pass soup pairs)) = pairs.
Proof.
  intros H.
  assert (dl_pass soup pairs = pairs) as ->.
  { unfold dl_pass.
    assert (∀ dls, Forall (λ d, Dom.strings d = []) dls →
      foldl (λ m dl, foldl (λ m dtdd, put_labelled m (label_of dtdd.1) (value_of dtdd.2))
                       m (zip (Dom.find_all ["dt"] dl) (Dom.find_all ["dd"] dl)))
            pairs dls = pairs) as Hdl.
    { intros dls Hdls. induction Hdls as [|dl dls Hd _ IH]; [done|].
      cbn [foldl]. rewrite <-IH at 2. f_equal.
      assert (Forall (λ d, Dom.strings d = []) (Dom.find_all ["dt"] dl)) as Hdt
        by (apply Forall_forall; intros d ?; by eapply textless_found).
      revert Hdt. generalize (Dom.find_all ["dt"] dl) (Dom.find_all ["dd"] dl).
      intros dts. induction dts as [|dt dts IHd]; intros dds Hdt; [done|].
      destruct dds as [|dd dds]; [done|]. apply Forall_cons in Hdt as [Hdt Hdts].
      cbn [zip zip_with foldl fst snd]. rewrite (textless_label _ Hdt).
      cbn [put_labelled Str.is_empty]. by apply IHd. }
    apply Hdl, Forall_forall. intros d ?. by eapply textless_found. }
  assert (table_pass soup pairs = pairs) as ->.
  { unfold table_pass.
    assert (∀ rows, Forall (λ d, Dom.strings d = []) rows →
              foldl put_row pairs rows = pairs) as Hrows.
    { intros rows Hr. induction Hr as [|row rows Hrow _ IH]; [done|].
      cbn [foldl]. rewrite <-IH at 2. f_equal. unfold put_row.
      destruct (Dom.find_all ["th"; "td"] row) as [|c0 [|c1 cols]] eqn:E; [done..|].
      rewrite (textless_label c0); [done|].
      apply (textless_found ["th"; "td"] row); [done|]. rewrite E.
      apply list_elem_of_here. }
    assert (∀ tables, Forall (λ d, Dom.strings d = []) tables →
              foldl (λ m table, foldl put_row m (Dom.find_all ["tr"] table))
                    pairs tables = pairs) as Htab.
    { intros tables Ht. induction Ht as [|table tables Htable _ IH]; [done|].
      cbn [foldl]. rewrite Hrows; [done|].
      apply Forall_forall. intros d ?. by eapply textless_found. }
    apply Htab, Forall_forall. intros d ?. by eapply textless_found. }
  unfold text_pass.
  assert (∀ ps, Forall (λ d, Dom.strings d = []) ps →
            foldl put_line pairs ps = pairs) as Hps.
  { intros ps Hp. induction Hp as [|p ps Hp _ IH]; [done|].
    cbn [foldl]. rewrite <-IH at 2. f_equal. unfold put_line, Dom.get_text.
    by rewrite Hp. }
  apply Hps, Forall_forall. intros d ?. by eapply textless_found.
Qed.

(** On a page without text the harvester finds nothing, and whether a
    record is returned is for the title to say: its [.string] may be a
    comment. *)
Lemma textless_profile urljoin url soup :
  Dom.strings soup = [] →
  find_label_value_pairs soup = ∅
  ∧ resolve_name soup = title_name soup
  ∧ (extract_profile urljoin url soup = None ↔ title_name soup = EmptyString).
Proof.
  intros H.
  assert (find_label_value_pairs soup = ∅) as Hpairs by by apply textless_pairs.
  assert (Dom.get_text " " soup = EmptyString) as Htext
    by (unfold Dom.get_text; by rewrite H).
  assert (resolve_name soup = title_name soup) as Hname.
  { unfold resolve_name. generalize (title_name soup).
    induction ["h1"; "h2"; "h3"] as [|tag tags IH]; intros name0; [done|].
    cbn [heading_name]. destruct (Dom.find [tag] soup) as [t|] eqn:E; [|done].
    assert (Dom.strings t = []) as Ht.
    { apply (textless_found [tag] soup); [done|].
      unfold Dom.find in E. destruct (Dom.find_all _ _); [done|].
      injection E as ->. apply list_elem_of_here. }
    unfold Dom.get_text_strip. rewrite Ht. apply IH. }
  split; [done|]. split; [done|].
  rewrite extract_profile_none, Hname.
  unfold page_emails, page_phones, page_designation. rewrite Htext, Hpairs.
  split; [by intros [? _]|]. intros Ht. by repeat split.
Qed.

(** X24: a page with no leaf at all, neither text nor comment --
    whatever its markup: pictures, empty headings, empty tables -- gives
    an empty label-value map and no record. *)
Theorem textless_page_yields_nothing urljoin url soup :
  Dom.leaves soup = [] →
  find_label_value_pairs soup = ∅ ∧ extract_profile urljoin url soup = None.
Proof.
  intros H.
  destruct (textless_profile urljoin url soup (leafless_strings _ H))
    as (Hpairs & _ & Hnone).
  split; [done|]. apply Hnone.
  unfold title_name. destruct (Dom.find ["title"] soup) as [t|] eqn:E; [|done].
  rewrite leafless_string_of; [done|].
  apply (leafless_found ["title"] soup); [done|].
  unfold Dom.find in E. destruct (Dom.find_all _ _); [done|].
  injection E as ->. apply list_elem_of_here.
Qed.

Lemma textless_page_yields_nothing_witness :
  find_label_value_pairs textless_page = ∅
  ∧ extract_profile urljoin_absolute site_home textless_page = None.
Proof.
  apply (textless_page_yields_nothing urljoin_absolute site_home textless_page).
  reflexivity.
Defined.

(** A comment is enough for a record: the page whose title wraps a
    comment has no text, and the comment becomes the name. *)
Example comment_title_names_record :
  Dom.strings comment_title_page = []
  ∧ Dom.leaves comment_title_page = [" staff list "]
  ∧ extract_profile urljoin_absolute site_home comment_title_page
    = Some (Profile "staff list" EmptyString EmptyString EmptyString EmptyString
              ∅ [] (Some "/img/logo.png") site_home).
Proof. repeat split; vm_compute; reflexivity. Qed.

(** ** Queueing *)

(** X26: the loop over a page's links never queues a URL that is in the
    visited set, never drops or reorders what the queue already holds,
    and never lets the visited URLs and the queue together grow past the
    limit, unless they were past it before. *)
Theorem enqueue_links_sound limit (seen : gset string) links q :
  (∀ u, u ∈ enqueue_links limit seen links q →
        u ∈ q ∨ (u ∈ links ∧ u ∉ seen))
  ∧ sublist q (enqueue_links limit seen links q)
  ∧ (Z.of_nat (size seen) + Z.of_nat (length (enqueue_links limit seen links q))
     ≤ Z.max limit (Z.of_nat (size seen) + Z.of_nat (length q)))%Z.
Proof.
  revert q. induction links as [|link links IH]; intros q; cbn [enqueue_links].
  { split; [by left|]. split; [done|lia]. }
  destruct (decide (link ∈ seen)) as [Hin|Hin].
  { destruct (IH q) as (He & Hs & Hl). split; [|done].
    intros u [?|[? ?]]%He; [by left|right]. split; [|done].
    by apply elem_of_cons; right. }
  destruct (Z.leb_spec limit (Z.of_nat (size seen) + Z.of_nat (length q))).
  { split; [by left|]. split; [done|lia]. }
  destruct (is_potential_relevant link).
  - destruct (IH (link :: q)) as (He & Hs & Hl). split; [|split].
    + intros u [Hu|[? ?]]%He.
      * apply elem_of_cons in Hu as [->|?]; [right|by left].
        split; [apply list_elem_of_here|done].
      * right. split; [by apply elem_of_cons; right|done].
    + etrans; [|exact Hs]. by apply sublist_cons.
    + cbn [length] in Hl. lia.
  - destruct (IH (q ++ [link])) as (He & Hs & Hl). split; [|split].
    + intros u [Hu|[? ?]]%He.
      * apply elem_of_app in Hu as [?| ->%list_elem_of_singleton]; [by left|right].
        split; [apply list_elem_of_here|done].
      * right. split; [by apply elem_of_cons; right|done].
    + etrans; [|exact Hs]. by apply sublist_inserts_r.
    + rewrite length_app in Hl. cbn [length] in Hl. lia.
Qed.

